(** * usercorn: go/ui/stream.go -- the streaming trace renderer

    A shallow embedding of [StreamUI] (the batching consumer [Feed]/[Flush],
    the state updater [update] and the renderer [insPrint], [blockPrint],
    [sysPrint]) together with the properties its description states.

    Conventions of the embedding
    - Go's [uint64], [uint8] and [int] values are integers in [Z]; the one
      arithmetic operation of the file, [s.PC += uint64(o.Size)], has its
      wrap-around at 2^64 written out ([wrap64]).
    - [[]byte] is [list byte]; Go strings are [string] (one [ascii] per byte,
      so Go's [len] is [String.length]).
    - Go maps ([Regs], [SpRegs], [Arch.RegNames()]) are [gmap].
    - The receiver [s *StreamUI] is threaded explicitly: every method takes
      the state and returns the new state.
    - The [io.Writer] is the list of chunks written so far, one entry per
      [fmt.Fprintf] call, oldest first. *)

From Stdlib Require Import ZArith String Ascii List HexString.
From Stdlib.Strings Require Import Byte.
From stdpp Require Import base tactics option list strings gmap pretty.

Set Warnings "-register-all".
Local Open Scope Z_scope.

(** ** Package [models]: the collaborators the file imports

    [models.Arch], [models.MemSim] and [models.Disas] are declared outside
    stream.go.  Only their interface is used here, so they are taken
    abstractly: the memory simulation and the disassembler are the methods of
    the class [Collaborators]. *)
Module models.

Record Arch := mkArch {
  (** [arch.SP]: the register number of the stack pointer. *)
  SP : Z;
  (** [arch.Bits]: the address width in bits (16, 32, 64, ...). *)
  Bits : nat;
  (** [arch.RegNames()]: register number to name. *)
  RegNames : gmap Z string
}.

Class Collaborators := {
  (** [models.MemSim], with the four methods stream.go calls.  The Go
      methods mutate the receiver and their results are discarded by
      stream.go; here each returns the new memory.  [Read m addr p] is the
      content of the buffer [p] after [m.Read(addr, p)]. *)
  MemSim : Type;
  MemSim_zero : MemSim;
  Map : MemSim → Z → Z → Z → bool → MemSim;
  Unmap : MemSim → Z → Z → MemSim;
  Write : MemSim → Z → list byte → MemSim;
  Read : MemSim → Z → list byte → list byte;
  (** [models.Disas(mem, addr, arch, showBytes)]: [None] stands for a
      non-nil [error]. *)
  Disas : list byte → Z → Arch → bool → option string
}.

End models.

(** ** Package [trace]: the operations of a trace

  The variants of [models.Op] that stream.go switches on, with the fields
  it reads. *)
Module trace.

Inductive Op : Type :=
| OpFrame (Ops : list Op)
| OpKeyframe (Ops : list Op)
| OpJmp (Addr : Z)
| OpStep (Size : Z)
| OpReg (Num : Z) (Val : Z)
| OpSpReg (Num : Z) (Val : list byte)
| OpMemMap (Addr : Z) (Size : Z) (Prot : Z) (Zero : Z)
| OpMemUnmap (Addr : Z) (Size : Z)
| OpMemRead (Addr : Z) (Data : list byte)
| OpMemWrite (Addr : Z) (Data : list byte)
| OpSyscall (Num : Z) (Args : list Z) (Ret : Z) (Ops : list Op)
| OpExit.

End trace.

Import trace.
(** ** The pieces of [fmt], [strings] and [strconv] that stream.go uses *)

(** The line feed, Go's ["\n"]. *)
Definition nl : string := String "010"%char EmptyString.

(** [strings.Repeat(s, n)] for a count [n] that is not negative. *)
Fixpoint Repeat (s : string) (n : nat) : string :=
  match n with
  | O => EmptyString
  | S n' => s +:+ Repeat s n'
  end.

(** [strings.Join(elems, sep)]. *)
Definition Join (elems : list string) (sep : string) : string :=
  String.concat sep elems.

(** The verb [%x] on an integer: lower-case hexadecimal digits. *)
Definition fmt_x (v : Z) : string :=
  match v with
  | Z0 => "0"
  | Zpos p => HexString.Raw.of_pos p EmptyString
  | Zneg p => "-" +:+ HexString.Raw.of_pos p EmptyString
  end.

(** The verb [%#x] on an integer: the digits of [%x] behind [0x]. *)
Definition fmt_sharp_x (v : Z) : string :=
  match v with
  | Zneg p => "-0x" +:+ HexString.Raw.of_pos p EmptyString
  | _ => "0x" +:+ fmt_x v
  end.

(** The verb [%d], and [strconv.Itoa]. *)
Definition fmt_d (v : Z) : string := pretty v.
Definition Itoa (v : Z) : string := pretty v.

(** One hexadecimal digit, for a value below 16. *)
Definition hex_digit (n : N) : string :=
  match n with
  | 0%N => "0" | 1%N => "1" | 2%N => "2" | 3%N => "3"
  | 4%N => "4" | 5%N => "5" | 6%N => "6" | 7%N => "7"
  | 8%N => "8" | 9%N => "9" | 10%N => "a" | 11%N => "b"
  | 12%N => "c" | 13%N => "d" | 14%N => "e" | _ => "f"
  end.

(** The verb [%x] on a byte slice: two digits per byte, nothing between. *)
Fixpoint fmt_x_bytes (p : list byte) : string :=
  match p with
  | [] => EmptyString
  | b :: p' =>
      hex_digit (Byte.to_N b / 16) +:+ hex_digit (Byte.to_N b mod 16)
      +:+ fmt_x_bytes p'
  end.

(** [make([]byte, size)]: [size] zero bytes ([size] is a [uint8]). *)
Definition make_bytes (size : Z) : list byte := replicate (Z.to_nat size) x00.

(** Left padding of [s] with the character [c] up to [width] bytes, as
    [fmt] pads the digits of an integer. *)
Definition lpad (c : string) (width : nat) (s : string) : string :=
  Repeat c (width - String.length s) +:+ s.

(** [unicode/utf8]: the table [first] on a leading byte, as the size of the
    encoding it announces and the range accepted for the second byte;
    [None] for an ASCII byte and for a byte that cannot lead. *)
Definition utf8_first (b : N) : option (nat * N * N) :=
  if (b <? 0xC2)%N then None
  else if (b <=? 0xDF)%N then Some (2%nat, 0x80%N, 0xBF%N)
  else if (b =? 0xE0)%N then Some (3%nat, 0xA0%N, 0xBF%N)
  else if (b <=? 0xEC)%N then Some (3%nat, 0x80%N, 0xBF%N)
  else if (b =? 0xED)%N then Some (3%nat, 0x80%N, 0x9F%N)
  else if (b <=? 0xEF)%N then Some (3%nat, 0x80%N, 0xBF%N)
  else if (b =? 0xF0)%N then Some (4%nat, 0x90%N, 0xBF%N)
  else if (b <=? 0xF3)%N then Some (4%nat, 0x80%N, 0xBF%N)
  else if (b =? 0xF4)%N then Some (4%nat, 0x80%N, 0x8F%N)
  else None.

(** A continuation byte, 0x80 to 0xBF. *)
Definition utf8_cont (c : ascii) : bool :=
  ((0x80 <=? N_of_ascii c) && (N_of_ascii c <=? 0xBF))%N.

(** The number of bytes [utf8.RuneCountInString] advances by at the byte [c]
    followed by [rest]: the size of a well-formed encoding, and one for an
    ASCII byte, an invalid byte or an encoding cut short. *)
Definition utf8_advance (c : ascii) (rest : string) : nat :=
  match utf8_first (N_of_ascii c) with
  | None => 1
  | Some (size, lo, hi) =>
      if (String.length rest <? size - 1)%nat then 1
      else
        match rest with
        | String c1 rest1 =>
            if negb ((lo <=? N_of_ascii c1) && (N_of_ascii c1 <=? hi))%N
            then 1
            else if (size =? 2)%nat then 2
            else
              match rest1 with
              | String c2 rest2 =>
                  if negb (utf8_cont c2) then 1
                  else if (size =? 3)%nat then 3
                  else
                    match rest2 with
                    | String c3 _ => if negb (utf8_cont c3) then 1 else 4
                    | EmptyString => 1
                    end
              | EmptyString => 1
              end
        | EmptyString => 1
        end
  end%nat.

(** The loop of [utf8.RuneCountInString]; [skip] is the number of bytes of
    the current rune still to pass. *)
Fixpoint rune_count_from (skip : nat) (s : string) : nat :=
  match s with
  | EmptyString => O
  | String c rest =>
      match skip with
      | S skip' => rune_count_from skip' rest
      | O => S (rune_count_from (utf8_advance c rest - 1) rest)
      end
  end.

(** [utf8.RuneCountInString(s)]. *)
Definition RuneCountInString (s : string) : nat := rune_count_from 0 s.

(** The verb [%<width>s]: [fmt] pads a string on the left with spaces up to
    [width] runes. *)
Definition fmt_s (width : nat) (s : string) : string :=
  Repeat " " (width - RuneCountInString s) +:+ s.

(** [regfmt] is built once by [NewStreamUI] as
    [fmt.Sprintf("%%%ds = %%#0%dx", longest, arch.Bits/4)], that is the format
    ["%<longest>s = %#0<digits>x"].  The field keeps the two numbers the
    format is made of. *)
Record RegFmt := mkRegFmt { name_width : nat; val_digits : nat }.

(** [fmt.Sprintf(s.regfmt, name, val)]: the name right-aligned in
    [name_width] columns (counted in runes), then [" = "], then [0x] and the
    value in at least [val_digits] hexadecimal digits ([fmt] counts the
    width of a [%#0Nx] in digits, the [0x] comes on top). *)
Definition Sprintf_regfmt (f : RegFmt) (name : string) (val : Z) : string :=
  fmt_s (name_width f) name +:+ " = " +:+ "0x"
  +:+ lpad "0" (val_digits f) (fmt_x val).

(** [uint64] addition wraps around at 2^64. *)
Definition wrap64 (v : Z) : Z := v mod 2 ^ 64.

(** ** stream.go *)

(** Lines 13-18. *)
Definition pad (s : string) (to : nat) : string :=
  if (to <=? String.length s)%nat then EmptyString
  else Repeat " " (to - String.length s).

Section StreamUI.

Context `{C : models.Collaborators}.

(** Lines 20-35.  The field [OS] is stored by [NewStreamUI] and never read
    in this file; it is left out.  [pending] is a [*trace.OpStep]: [None] is
    the nil pointer, [Some size] points to a step of that [Size].  [inscol]
    and [regcol] are only ever given the values computed by [NewStreamUI],
    which are not negative. *)
Record StreamUI := mkStreamUI {
  Arch : models.Arch;
  Mem : models.MemSim;
  Regs : gmap Z Z;
  SpRegs : gmap Z (list byte);
  PC : Z;
  SP : Z;
  w : list string;
  regfmt : RegFmt;
  inscol : nat;
  regcol : nat;
  pending : option Z;
  effects : list Op
}.

(** Assignments to one field. *)
Definition set_Mem (m : models.MemSim) (s : StreamUI) : StreamUI :=
  mkStreamUI (Arch s) m (Regs s) (SpRegs s) (PC s) (SP s) (w s)
             (regfmt s) (inscol s) (regcol s) (pending s) (effects s).
Definition set_Regs (r : gmap Z Z) (s : StreamUI) : StreamUI :=
  mkStreamUI (Arch s) (Mem s) r (SpRegs s) (PC s) (SP s) (w s)
             (regfmt s) (inscol s) (regcol s) (pending s) (effects s).
Definition set_SpRegs (r : gmap Z (list byte)) (s : StreamUI) : StreamUI :=
  mkStreamUI (Arch s) (Mem s) (Regs s) r (PC s) (SP s) (w s)
             (regfmt s) (inscol s) (regcol s) (pending s) (effects s).
Definition set_PC (pc : Z) (s : StreamUI) : StreamUI :=
  mkStreamUI (Arch s) (Mem s) (Regs s) (SpRegs s) pc (SP s) (w s)
             (regfmt s) (inscol s) (regcol s) (pending s) (effects s).
Definition set_SP (sp : Z) (s : StreamUI) : StreamUI :=
  mkStreamUI (Arch s) (Mem s) (Regs s) (SpRegs s) (PC s) sp (w s)
             (regfmt s) (inscol s) (regcol s) (pending s) (effects s).
Definition set_pending (p : option Z) (s : StreamUI) : StreamUI :=
  mkStreamUI (Arch s) (Mem s) (Regs s) (SpRegs s) (PC s) (SP s) (w s)
             (regfmt s) (inscol s) (regcol s) p (effects s).
Definition set_effects (e : list Op) (s : StreamUI) : StreamUI :=
  mkStreamUI (Arch s) (Mem s) (Regs s) (SpRegs s) (PC s) (SP s) (w s)
             (regfmt s) (inscol s) (regcol s) (pending s) e.

(** [fmt.Fprintf(s.w, ...)] with the formatted text [out]: one more chunk on
    the writer.  The error result of [Fprintf] is discarded by every caller. *)
Definition Fprintf (s : StreamUI) (out : string) : StreamUI :=
  mkStreamUI (Arch s) (Mem s) (Regs s) (SpRegs s) (PC s) (SP s) (w s ++ [out])
             (regfmt s) (inscol s) (regcol s) (pending s) (effects s).

(** Lines 37-57. *)
Definition NewStreamUI (arch : models.Arch) : StreamUI :=
  let longest :=
    map_fold (λ (_ : Z) (name : string) (longest : nat),
                if (longest <? String.length name)%nat
                then String.length name else longest)
             O (models.RegNames arch) in
  {| Arch := arch;
     Mem := models.MemSim_zero;
     Regs := ∅;
     SpRegs := ∅;
     PC := 0;
     SP := 0;
     w := [];
     regfmt := mkRegFmt longest (models.Bits arch / 4);
     inscol := 60;
     regcol := longest + 5 + models.Bits arch / 4;
     pending := None;
     effects := [] |}.

(** Lines 59-88: [update] applies the state change(s) of [op]. *)
Fixpoint update (s : StreamUI) (op : Op) {struct op} : StreamUI :=
  match op with
  | OpJmp addr => set_PC addr s
  | OpStep size => set_PC (wrap64 (PC s + size)) s
  | OpReg num val =>
      let s := if num =? models.SP (Arch s) then set_SP val s else s in
      set_Regs (<[num := val]> (Regs s)) s
  | OpSpReg num val => set_SpRegs (<[num := val]> (SpRegs s)) s
  | OpMemMap addr size prot zero =>
      set_Mem (models.Map (Mem s) addr size prot (negb (zero =? 0))) s
  | OpMemUnmap addr size => set_Mem (models.Unmap (Mem s) addr size) s
  | OpMemWrite addr data => set_Mem (models.Write (Mem s) addr data) s
  | OpSyscall _ _ _ ops => foldl update s ops
  | _ => s
  end.

(** Lines 145-148. *)
Definition blockPrint (s : StreamUI) (addr : Z) : StreamUI :=
  Fprintf s (nl +:+ fmt_sharp_x addr +:+ nl).

(** Lines 150-165; the arguments are the fields [Num], [Args] and [Ret] of
    the syscall, the only ones read. *)
Definition sysPrint (s : StreamUI) (num : Z) (args : list Z) (ret : Z)
  : StreamUI :=
  let args := fmt_sharp_x <$> args in
  Fprintf s ("syscall(" +:+ fmt_d num +:+ ", [" +:+ Join args ", "
             +:+ "]) = " +:+ fmt_d ret +:+ nl).

(** Lines 171-180 of [insPrint]: the text of the instruction, its
    disassembly or, when [models.Disas] fails, the address and the raw
    bytes. *)
Definition insPrint_ins (s : StreamUI) (pc : Z) (size : Z) : string :=
  let insmem := models.Read (Mem s) pc (make_bytes size) in
  match models.Disas insmem pc (Arch s) false with
  | None => fmt_sharp_x pc +:+ ": " +:+ fmt_x_bytes insmem
  | Some dis => dis
  end.

(** Lines 185-204 of [insPrint]: one turn of the loop over the effects.  The
    accumulator is the state (for the writer) and the slices [regs] and
    [mem]. *)
Definition insPrint_effect (acc : StreamUI * list string * list string)
  (op : Op) : StreamUI * list string * list string :=
  let '(s, regs, mem) := acc in
  match op with
  | OpReg num val =>
      let name := match models.RegNames (Arch s) !! num with
                  | Some name => name
                  | None => Itoa num
                  end in
      (s, regs ++ [Sprintf_regfmt (regfmt s) name val], mem)
  | OpSpReg _ _ =>
      (Fprintf s ("<unimplemented special register>" +:+ nl), regs, mem)
  | OpMemRead addr _ => (s, regs, mem ++ ["R " +:+ fmt_x addr])
  | OpMemWrite addr _ => (s, regs, mem ++ ["W " +:+ fmt_x addr])
  | _ => acc
  end.

(** Lines 232-238 of [insPrint]: the loop over [regs[1:]]; [i] is the index
    of [r] in that slice. *)
Fixpoint insPrint_extra (s : StreamUI) (inspad : string) (i : nat)
  (rest : list string) (mem : list string) : StreamUI :=
  match rest with
  | [] => s
  | r :: rest' =>
      let s :=
        match mem !! (i + 1)%nat with
        | Some m => Fprintf s (inspad +:+ " + " +:+ r +:+ " + " +:+ m +:+ nl)
        | None => Fprintf s (inspad +:+ " + " +:+ r +:+ nl)
        end in
      insPrint_extra s inspad (S i) rest' mem
  end.

(** Lines 167-240. *)
Definition insPrint (s : StreamUI) (pc : Z) (size : Z) (effects : list Op)
  : StreamUI :=
  let ins := insPrint_ins s pc size in
  let '(s, regs, mem) := foldl insPrint_effect (s, [], []) effects in
  let reg := match regs with
             | r0 :: _ => r0 +:+ pad r0 (regcol s)
             | [] => Repeat " " (regcol s)
             end in
  let m := match mem with
           | m0 :: _ => m0
           | [] => EmptyString
           end in
  let ins := ins +:+ pad ins (inscol s) in
  let s := if String.eqb m EmptyString
           then Fprintf s (ins +:+ " | " +:+ reg +:+ nl)
           else Fprintf s (ins +:+ " | " +:+ reg +:+ " | " +:+ m +:+ nl) in
  if (1 <? length regs)%nat
  then insPrint_extra s (Repeat " " (inscol s)) 0 (drop 1 regs) mem
  else s.

(** Lines 132-143. *)
Definition Flush (s : StreamUI) : StreamUI :=
  match pending s with
  | Some size =>
      let s := insPrint s (PC s) size (effects s) in
      let s := update s (OpStep size) in
      let s := foldl update s (effects s) in
      let s := set_effects [] s in
      set_pending None s
  | None => s
  end.

(** Lines 111-129 of [Feed]: one turn of the loop over [ops]. *)
Definition Feed_op (s : StreamUI) (op : Op) : StreamUI :=
  match op with
  | OpJmp addr =>
      let s := Flush s in
      let s := blockPrint s addr in
      update s op
  | OpStep size =>
      let s := Flush s in
      set_pending (Some size) s
  | OpSyscall num args ret _ =>
      let s := Flush s in
      sysPrint s num args ret
  | _ => set_effects (effects s ++ [op]) s
  end.

(** Lines 90-130. *)
Definition Feed (s : StreamUI) (op : Op) : StreamUI :=
  match op with
  | OpFrame ops => foldl Feed_op s ops
  | OpKeyframe ops =>
      let s := Flush s in
      foldl update s ops
  | _ => foldl Feed_op s [op]
  end.

End StreamUI.

Arguments StreamUI {C}.

(** ** A concrete memory simulation and disassembler, for running traces *)
Module Sim.

(** Modelled from the spec: [models.MemSim] is declared outside stream.go.
    The description gives its interface, "map(address, size, protection,
    zero-fill), unmap(address, size), write(address, bytes), and
    read(address, destination-buffer) operations over a sparse address
    space", tracking "mapped ranges and byte contents".  Here the address
    space is a finite map from the mapped addresses to their byte. *)
Definition MemSim : Type := gmap Z byte.

(** Modelled from the spec: [MemSim.Map], "map [address, address+size) with
    given protection and zero-fill flag".  Every address of the range becomes
    mapped; it holds zero when [zero] is set or when it was not mapped. *)
Definition Map (m : gmap Z byte) (addr size prot : Z) (zero : bool)
  : gmap Z byte :=
  foldl (λ (m : gmap Z byte) (a : Z),
           if zero then <[a := x00]> m
           else <[a := default x00 (m !! a)]> m)
        m (seqZ addr size).

(** Modelled from the spec: [MemSim.Unmap], "unmap [address,
    address+size)". *)
Definition Unmap (m : gmap Z byte) (addr size : Z) : gmap Z byte :=
  foldl (λ (m : gmap Z byte) (a : Z), delete a m) m (seqZ addr size).

(** Modelled from the spec: [MemSim.Write], "write byte payload at
    address".  A write reaches the mapped addresses only. *)
Definition Write (m : gmap Z byte) (addr : Z) (data : list byte)
  : gmap Z byte :=
  foldl (λ (m : gmap Z byte) (ab : Z * byte),
           match m !! ab.1 with
           | Some _ => <[ab.1 := ab.2]> m
           | None => m
           end)
        m (zip (seqZ addr (Z.of_nat (length data))) data).

(** Modelled from the spec: [MemSim.Read], "read(address,
    destination-buffer)".  A read fills the buffer from the mapped addresses
    and leaves the rest of it as it was. *)
Definition Read (m : gmap Z byte) (addr : Z) (p : list byte) : list byte :=
  imap (λ (i : nat) (b : byte), default b (m !! (addr + Z.of_nat i))) p.

(** Modelled from the spec: [models.Disas] is declared outside stream.go; it
    "produces a textual mnemonic rendering or fails explicitly".  This one
    knows two one-byte instructions and fails on everything else. *)
Definition Disas (mem : list byte) (addr : Z) (arch : models.Arch)
  (showBytes : bool) : option string :=
  match mem with
  | [x90] => Some "nop"
  | [xc3] => Some "ret"
  | _ => None
  end.

#[export] Instance collaborators : models.Collaborators := {|
  models.MemSim := MemSim;
  models.MemSim_zero := ∅;
  models.Map := Map;
  models.Unmap := Unmap;
  models.Write := Write;
  models.Read := Read;
  models.Disas := Disas
|}.

(** A 32-bit architecture with three named registers; register 4 is the
    stack pointer. *)
Definition arch : models.Arch :=
  models.mkArch 4 32 (<[0 := "eax"]> (<[1 := "ecx"]> (<[4 := "esp"]> ∅))).

(** A fresh consumer on [arch]. *)
Definition s0 : StreamUI := NewStreamUI arch.

(** The start of a trace: a keyframe maps sixteen zero bytes at 0x2000 and a
    jump enters the block there. *)
Definition entry : list Op :=
  [OpKeyframe [OpMemMap 0x2000 16 7 1]; OpJmp 0x2000].

(** The consumer after [entry]: nothing pending, nothing queued. *)
Definition s_entry : StreamUI := foldl Feed s0 entry.

(** A [read(0, 0x2000, 1)] that returned 1 and stored the byte 0xc3. *)
Definition sys_read : Op :=
  OpSyscall 3 [0; 0x2000; 1] 1 [OpMemWrite 0x2000 [xc3]].

End Sim.

(** ** Vocabulary of the statements *)

(** The Shadow State of a consumer: memory, registers, special registers,
    program counter and stack pointer. *)
Definition shadow `{C : models.Collaborators} (s : StreamUI) :=
  (Mem s, Regs s, SpRegs s, PC s, SP s).

(** The pending instruction and the queue of side effects. *)
Definition queue `{C : models.Collaborators} (s : StreamUI) :=
  (pending s, effects s).

(** What is fixed when the consumer is created. *)
Definition layout `{C : models.Collaborators} (s : StreamUI) :=
  (Arch s, regfmt s, inscol s, regcol s).

(** The writer replaced, everything else kept. *)
Definition set_w `{C : models.Collaborators} (out : list string)
  (s : StreamUI) : StreamUI :=
  mkStreamUI (Arch s) (Mem s) (Regs s) (SpRegs s) (PC s) (SP s) out
             (regfmt s) (inscol s) (regcol s) (pending s) (effects s).

(** The two batches [Feed] opens at top level. *)
Definition is_batch (op : Op) : bool :=
  match op with
  | OpFrame _ | OpKeyframe _ => true
  | _ => false
  end.

(** The non-boundary events: register and special-register writes, memory
    map, unmap, read and write, and exit. *)
Definition is_side_effect (op : Op) : bool :=
  match op with
  | OpReg _ _ | OpSpReg _ _ | OpMemMap _ _ _ _ | OpMemUnmap _ _
  | OpMemRead _ _ | OpMemWrite _ _ | OpExit => true
  | _ => false
  end.

(** The boundaries that flush without leaving an instruction pending: a
    jump, a syscall, a keyframe. *)
Definition is_stepless_boundary (op : Op) : bool :=
  match op with
  | OpJmp _ | OpSyscall _ _ _ _ | OpKeyframe _ => true
  | _ => false
  end.

(** Register changes and memory accesses among the effects of an
    instruction, the two kinds [insPrint] gives a column to. *)
Definition is_reg_write (op : Op) : bool :=
  match op with
  | OpReg _ _ => true
  | _ => false
  end.

Definition is_mem_access (op : Op) : bool :=
  match op with
  | OpMemRead _ _ | OpMemWrite _ _ => true
  | _ => false
  end.

(** The texts [insPrint] collects from a queue of effects, kind by kind and
    in the order of the queue: the marker lines of the special registers,
    the register changes, the memory accesses. *)
Definition spreg_lines (effs : list Op) : list string :=
  flat_map (λ op, match op with
                  | OpSpReg _ _ => ["<unimplemented special register>" +:+ nl]
                  | _ => []
                  end) effs.

Definition reg_changes `{C : models.Collaborators} (s : StreamUI)
  (effs : list Op) : list string :=
  flat_map (λ op, match op with
                  | OpReg num val =>
                      [Sprintf_regfmt (regfmt s)
                         (default (Itoa num) (models.RegNames (Arch s) !! num))
                         val]
                  | _ => []
                  end) effs.

Definition mem_accesses (effs : list Op) : list string :=
  flat_map (λ op, match op with
                  | OpMemRead addr _ => ["R " +:+ fmt_x addr]
                  | OpMemWrite addr _ => ["W " +:+ fmt_x addr]
                  | _ => []
                  end) effs.

(** The lines of the register changes after the first, each with the memory
    access of the same rank when there is one. *)
Fixpoint extra_lines (inspad : string) (i : nat) (rest mem : list string)
  : list string :=
  match rest with
  | [] => []
  | r :: rest' =>
      match mem !! (i + 1)%nat with
      | Some m => inspad +:+ " + " +:+ r +:+ " + " +:+ m +:+ nl
      | None => inspad +:+ " + " +:+ r +:+ nl
      end :: extra_lines inspad (S i) rest' mem
  end.

(** The rendering of an instruction, as the description lays it out: the
    marker lines, the primary line (instruction column, register column
    and, when there is a memory access, the memory column), then the lines
    of the further register changes. *)
Definition rendering `{C : models.Collaborators} (s : StreamUI) (pc size : Z)
  (effs : list Op) : list string :=
  let ins := insPrint_ins s pc size in
  let col := ins +:+ pad ins (inscol s) in
  let regs := reg_changes s effs in
  let mem := mem_accesses effs in
  let reg := match regs with
             | r0 :: _ => r0 +:+ pad r0 (regcol s)
             | [] => Repeat " " (regcol s)
             end in
  let primary := match mem with
                 | m0 :: _ => col +:+ " | " +:+ reg +:+ " | " +:+ m0 +:+ nl
                 | [] => col +:+ " | " +:+ reg +:+ nl
                 end in
  spreg_lines effs ++ primary
  :: extra_lines (Repeat " " (inscol s)) 0 (drop 1 regs) mem.

(** The program counter after an event, told in the words of the
    description: a step adds its size (in [uint64]), a jump replaces the
    counter by its target, a syscall is the sequence of its nested events,
    and any other event leaves the counter alone. *)
Fixpoint pc_after (pc : Z) (ev : Op) {struct ev} : Z :=
  match ev with
  | OpStep size => wrap64 (pc + size)
  | OpJmp target => target
  | OpSyscall _ _ _ nested => foldl pc_after pc nested
  | _ => pc
  end.

(** The operations that end an instruction in the loop of [Feed]. *)
Definition is_boundary (op : Op) : bool :=
  match op with
  | OpJmp _ | OpStep _ | OpSyscall _ _ _ _ => true
  | _ => false
  end.

(** The events of a plain trace: jumps, steps and side effects. *)
Definition is_plain (op : Op) : bool :=
  match op with
  | OpJmp _ | OpStep _ => true
  | _ => is_side_effect op
  end.

(** The operations neither [update] nor [insPrint] has a case for. *)
Definition is_inert (op : Op) : bool :=
  match op with
  | OpFrame _ | OpKeyframe _ | OpExit => true
  | _ => false
  end.

(** The queue holds no jump, step or syscall. *)
Definition queue_ok `{C : models.Collaborators} (s : StreamUI) : Prop :=
  Forall (λ op, is_boundary op = false) (effects s).

(** The field [SP] agrees with the entry of the stack pointer in [Regs],
    when there is one. *)
Definition sp_mirror `{C : models.Collaborators} (s : StreamUI) : Prop :=
  ∀ v, Regs s !! models.SP (Arch s) = Some v → SP s = v.

(** A state stripped of the writer, the pending instruction and the queue:
    what is left is the Shadow State and the layout. *)
Definition core `{C : models.Collaborators} (s : StreamUI) : StreamUI :=
  mkStreamUI (Arch s) (Mem s) (Regs s) (SpRegs s) (PC s) (SP s) []
             (regfmt s) (inscol s) (regcol s) None [].

(** The state with the pending step and the queued effects applied, as a
    flush applies them. *)
Definition settled `{C : models.Collaborators} (s : StreamUI) : StreamUI :=
  foldl update
        match pending s with
        | Some size => update s (OpStep size)
        | None => s
        end
        (effects s).

(** The writes of a special register among the effects. *)
Definition is_spreg (op : Op) : bool :=
  match op with
  | OpSpReg _ _ => true
  | _ => false
  end.

(** The bound of a [uint64]. *)
Definition is_uint64 (v : Z) : Prop := 0 ≤ v < 2 ^ 64.

(** Every jump target in the event, nested ones included, is a [uint64]. *)
Fixpoint targets_ok (op : Op) {struct op} : bool :=
  match op with
  | OpJmp addr => (0 <=? addr) && (addr <? 2 ^ 64)
  | OpFrame ops | OpKeyframe ops | OpSyscall _ _ _ ops => forallb targets_ok ops
  | _ => true
  end.

(** A chunk of output that ends with a line feed. *)
Definition ends_with_nl (line : string) : Prop := ∃ text, line = text +:+ nl.

(** The events [update] has no case for: it skips them where they stand. *)
Definition is_skipped (op : Op) : bool :=
  match op with
  | OpFrame _ | OpKeyframe _ | OpMemRead _ _ | OpExit => true
  | _ => false
  end.

(** ** Basic facts *)

(** Induction that also reaches the operations nested in a frame, a
    keyframe or a syscall. *)
Lemma Op_nested_ind (P : Op → Prop)
  (HFrame : ∀ ops, Forall P ops → P (OpFrame ops))
  (HKeyframe : ∀ ops, Forall P ops → P (OpKeyframe ops))
  (HJmp : ∀ a, P (OpJmp a))
  (HStep : ∀ sz, P (OpStep sz))
  (HReg : ∀ n v, P (OpReg n v))
  (HSpReg : ∀ n v, P (OpSpReg n v))
  (HMemMap : ∀ a sz p z, P (OpMemMap a sz p z))
  (HMemUnmap : ∀ a sz, P (OpMemUnmap a sz))
  (HMemRead : ∀ a d, P (OpMemRead a d))
  (HMemWrite : ∀ a d, P (OpMemWrite a d))
  (HSyscall : ∀ n args r ops, Forall P ops → P (OpSyscall n args r ops))
  (HExit : P OpExit) :
  ∀ op, P op.
Proof.
  fix IH 1.
  assert (Hall : ∀ ops, Forall P ops).
  { fix IHl 1. intros [|o ops]; constructor; [apply IH | apply IHl]. }
  intros [ops|ops|a|sz|n v|n v|a sz p z|a sz|a d|a d|n args r ops|].
  - apply HFrame, Hall.
  - apply HKeyframe, Hall.
  - apply HJmp.
  - apply HStep.
  - apply HReg.
  - apply HSpReg.
  - apply HMemMap.
  - apply HMemUnmap.
  - apply HMemRead.
  - apply HMemWrite.
  - apply HSyscall, Hall.
  - apply HExit.
Qed.

Section Properties.

Context `{C : models.Collaborators}.

Implicit Types (s : StreamUI) (op : Op) (ops : list Op) (out : list string).

Lemma set_w_id s : set_w (w s) s = s.
Proof. by destruct s. Qed.

Lemma set_w_set_w out out' s : set_w out (set_w out' s) = set_w out s.
Proof. reflexivity. Qed.

Lemma Fprintf_set_w s line : Fprintf s line = set_w (w s ++ [line]) s.
Proof. reflexivity. Qed.

(** [update] on a list, one operation after the other. *)
Lemma update_syscall s num args ret ops :
  update s (OpSyscall num args ret ops) = foldl update s ops.
Proof. reflexivity. Qed.

(** [update] never looks at the writer: it commutes with a change of it. *)
Lemma update_set_w op : ∀ out s, update (set_w out s) op = set_w out (update s op).
Proof.
  induction op using Op_nested_ind; intros out s; try reflexivity.
  - cbn [update]. change (Arch (set_w out s)) with (Arch s).
    by destruct (_ =? _).
  - rewrite !update_syscall. revert s.
    induction H as [|op ops Hop _ IH]; intros s; [reflexivity|].
    cbn [foldl]. by rewrite Hop, IH.
Qed.

Lemma foldl_update_set_w ops : ∀ out s,
  foldl update (set_w out s) ops = set_w out (foldl update s ops).
Proof.
  induction ops as [|op ops IH]; intros out s; [reflexivity|].
  cbn [foldl]. by rewrite update_set_w, IH.
Qed.

(** [update] writes nothing, and touches neither the queue nor the layout. *)
Lemma update_frame op : ∀ s,
  w (update s op) = w s ∧ queue (update s op) = queue s
  ∧ layout (update s op) = layout s.
Proof.
  induction op using Op_nested_ind; intros s; try done.
  - cbn [update]. by destruct (_ =? _).
  - rewrite update_syscall. revert s.
    induction H as [|op ops Hop _ IH]; intros s; [done|].
    cbn [foldl]. destruct (IH (update s op)) as (-> & -> & ->). apply Hop.
Qed.

Lemma foldl_update_frame ops : ∀ s,
  w (foldl update s ops) = w s ∧ queue (foldl update s ops) = queue s
  ∧ layout (foldl update s ops) = layout s.
Proof.
  induction ops as [|op ops IH]; intros s; [done|].
  cbn [foldl]. destruct (IH (update s op)) as (-> & -> & ->).
  apply update_frame.
Qed.

(** *** The renderer *)

Lemma mem_accesses_nonempty effs :
  Forall (λ m, String.eqb m EmptyString = false) (mem_accesses effs).
Proof.
  induction effs as [|op effs IH]; [constructor|].
  destruct op; cbn; try done; by constructor.
Qed.

Lemma mem_accesses_none effs :
  Forall (λ op, is_mem_access op = false) effs → mem_accesses effs = [].
Proof.
  induction 1 as [|op effs Hop _ IH]; [done|].
  destruct op; cbn in *; done.
Qed.

Lemma reg_changes_none s effs :
  Forall (λ op, is_reg_write op = false) effs → reg_changes s effs = [].
Proof.
  induction 1 as [|op effs Hop _ IH]; [done|].
  destruct op; cbn in *; done.
Qed.

(** The loop over the effects: what it writes and what it collects. *)
Lemma insPrint_effect_foldl effs : ∀ s regs mem,
  foldl insPrint_effect (s, regs, mem) effs
  = (set_w (w s ++ spreg_lines effs) s,
     regs ++ reg_changes s effs, mem ++ mem_accesses effs).
Proof.
  induction effs as [|op effs IH]; intros s regs mem.
  { cbn. by rewrite !app_nil_r, set_w_id. }
  destruct op; cbn [foldl insPrint_effect]; rewrite IH; clear IH;
    cbn [spreg_lines reg_changes mem_accesses flat_map app];
    rewrite <- ?app_assoc; try reflexivity.
  do 2 f_equal; try reflexivity.
  rewrite Fprintf_set_w, set_w_set_w. cbn [w set_w].
  by rewrite <- app_assoc.
Qed.

(** The loop over the further register changes only writes. *)
Lemma insPrint_extra_out rest : ∀ s inspad i mem,
  insPrint_extra s inspad i rest mem
  = set_w (w s ++ extra_lines inspad i rest mem) s.
Proof.
  induction rest as [|r rest IH]; intros s inspad i mem.
  { cbn. by rewrite app_nil_r, set_w_id. }
  cbn [insPrint_extra extra_lines].
  destruct (mem !! _) as [m|]; rewrite IH, Fprintf_set_w, set_w_set_w;
    cbn [w set_w]; by rewrite <- app_assoc.
Qed.

(** [insPrint] is the rendering sent to the writer; nothing but the writer
    changes. *)
Lemma insPrint_rendering s pc size effs :
  insPrint s pc size effs = set_w (w s ++ rendering s pc size effs) s.
Proof.
  unfold insPrint, rendering.
  rewrite insPrint_effect_foldl. cbn [app].
  set (ins := insPrint_ins s pc size). set (s1 := set_w _ s).
  change (regcol s1) with (regcol s). change (inscol s1) with (inscol s).
  set (col := ins +:+ pad ins (inscol s)).
  set (reg := match reg_changes s effs with [] => _ | _ => _ end).
  set (s2 := if String.eqb _ _ then _ else _).
  set (primary := match mem_accesses effs with [] => _ | _ => _ end).
  assert (Hs2 : s2 = set_w (w s ++ spreg_lines effs ++ [primary]) s).
  { subst s2 primary. pose proof (mem_accesses_nonempty effs) as Hne.
    destruct (mem_accesses effs) as [|m0 ms].
    - cbn [String.eqb]. rewrite Fprintf_set_w. subst s1.
      rewrite set_w_set_w. cbn [w set_w]. by rewrite <- app_assoc.
    - apply Forall_cons_1 in Hne as [-> _]. rewrite Fprintf_set_w. subst s1.
      rewrite set_w_set_w. cbn [w set_w]. by rewrite <- app_assoc. }
  rewrite Hs2. clear Hs2 s2.
  destruct (1 <? length (reg_changes s effs))%nat eqn:Hlen.
  - rewrite insPrint_extra_out, set_w_set_w. cbn [w set_w].
    f_equal. by rewrite <- !app_assoc.
  - apply Nat.ltb_ge in Hlen.
    replace (drop 1 (reg_changes s effs)) with (@nil string); [done|].
    destruct (reg_changes s effs) as [|r0 [|r1 rs]]; cbn in *; [done..|lia].
Qed.

Lemma insPrint_set_w s pc size effs :
  ∃ lines, insPrint s pc size effs = set_w (w s ++ lines) s.
Proof. rewrite insPrint_rendering. eauto. Qed.

(** The rendering reads the memory, the layout and nothing else. *)
Lemma rendering_set_pending s p pc size effs :
  rendering (set_pending p s) pc size effs = rendering s pc size effs.
Proof. reflexivity. Qed.

Lemma insPrint_frame s pc size effs :
  shadow (insPrint s pc size effs) = shadow s
  ∧ queue (insPrint s pc size effs) = queue s
  ∧ layout (insPrint s pc size effs) = layout s.
Proof. by destruct (insPrint_set_w s pc size effs) as [lines ->]. Qed.

(** *** [Flush] *)

Lemma Flush_none s : pending s = None → Flush s = s.
Proof. unfold Flush. by intros ->. Qed.

Lemma Flush_some s size :
  pending s = Some size →
  Flush s
  = set_pending None (set_effects []
      (foldl update (update (insPrint s (PC s) size (effects s)) (OpStep size))
         (effects s))).
Proof.
  unfold Flush. intros ->.
  destruct (insPrint_set_w s (PC s) size (effects s)) as [lines ->].
  reflexivity.
Qed.

(** The same with the writer moved out: the lines of [insPrint] are computed
    on [s], before any of the updates. *)
Lemma Flush_some_set_w s size :
  pending s = Some size →
  Flush s
  = set_pending None (set_effects []
      (set_w (w (insPrint s (PC s) size (effects s)))
         (foldl update (update s (OpStep size)) (effects s)))).
Proof.
  intros Hp. rewrite (Flush_some s size Hp).
  destruct (insPrint_set_w s (PC s) size (effects s)) as [lines ->].
  by rewrite update_set_w, foldl_update_set_w.
Qed.

Lemma Flush_pending s : pending (Flush s) = None.
Proof.
  destruct (pending s) as [size|] eqn:Hp.
  - by rewrite (Flush_some s size Hp).
  - by rewrite Flush_none.
Qed.

Lemma Flush_layout s : layout (Flush s) = layout s.
Proof.
  destruct (pending s) as [size|] eqn:Hp; [|by rewrite Flush_none].
  rewrite (Flush_some_set_w s size Hp).
  change (layout (set_pending _ (set_effects _ (set_w ?o ?x)))) with (layout x).
  destruct (foldl_update_frame (effects s) (update s (OpStep size)))
    as (_ & _ & ->).
  reflexivity.
Qed.

(** ** The claims *)

(** C4.  [Flush] with a pending instruction [size]: the lines written are
    those of [insPrint] run on the state before the flush, with the program
    counter of before the instruction, its size and the queued effects, and
    that rendering changes nothing of the Shadow State; the Shadow State
    after the flush is that of the pending step applied first (the counter
    advances by [size], in [uint64]) and then the queued effects applied in
    the order of the queue; at the end the queue is empty and no instruction
    is pending.  [Flush] with no pending instruction returns the state
    unchanged, so nothing is written. *)
Theorem Flush_contract s :
  (∀ size, pending s = Some size →
     let rendered := insPrint s (PC s) size (effects s) in
     w (Flush s) = w rendered
     ∧ shadow rendered = shadow s
     ∧ PC (update rendered (OpStep size)) = wrap64 (PC s + size)
     ∧ shadow (Flush s)
       = shadow (foldl update (update s (OpStep size)) (effects s))
     ∧ Flush s
       = set_pending None (set_effects []
           (foldl update (update rendered (OpStep size)) (effects s)))
     ∧ effects (Flush s) = [] ∧ pending (Flush s) = None)
  ∧ (pending s = None → Flush s = s).
Proof.
  split; [|apply Flush_none].
  intros size Hp rendered.
  destruct (insPrint_frame s (PC s) size (effects s)) as (Hsh & _ & _).
  pose proof (Flush_some_set_w s size Hp) as Hw.
  split_and!.
  - by rewrite Hw.
  - exact Hsh.
  - apply (f_equal (λ x, x.1.2)) in Hsh. cbn in Hsh.
    unfold rendered. cbn [update PC set_PC]. by rewrite Hsh.
  - by rewrite Hw.
  - apply (Flush_some s size Hp).
  - by rewrite Hw.
  - apply Flush_pending.
Qed.

(** C5.  After any stream of events, a first [Flush] leaves no instruction
    pending, so a second [Flush] right after it returns its state as it is:
    the writer holds what it held after the first call, nothing more. *)
Theorem Flush_twice (s0 : StreamUI) (evs : list Op) :
  let s := foldl Feed s0 evs in
  pending (Flush s) = None
  ∧ Flush (Flush s) = Flush s
  ∧ w (Flush (Flush s)) = w (Flush s).
Proof.
  intros s. pose proof (Flush_pending s) as Hp.
  rewrite (Flush_none _ Hp). done.
Qed.

(** C7.  The program counter after a sequence of events applied by [update]
    is the fold of [pc_after] over the sequence from the counter before: a
    step adds its size, a jump overrides the counter, a syscall recurses
    into its nested events, everything else leaves the counter alone. *)
Theorem update_PC_fold (evs : list Op) : ∀ s,
  PC (foldl update s evs) = foldl pc_after (PC s) evs.
Proof.
  assert (Hone : ∀ ev s, PC (update s ev) = pc_after (PC s) ev).
  { induction ev using Op_nested_ind; intros s; try reflexivity.
    - cbn [update]. by destruct (_ =? _).
    - rewrite update_syscall. cbn [pc_after]. revert s.
      induction H as [|ev evs' Hev _ IH]; intros s; [reflexivity|].
      cbn [foldl]. by rewrite IH, Hev. }
  induction evs as [|ev evs IH]; intros s; [reflexivity|].
  cbn [foldl]. by rewrite IH, Hone.
Qed.

(** *** [Feed], case by case *)

Lemma Feed_frame s ops : Feed s (OpFrame ops) = foldl Feed_op s ops.
Proof. reflexivity. Qed.

Lemma Feed_on_keyframe s ops :
  Feed s (OpKeyframe ops) = foldl update (Flush s) ops.
Proof. reflexivity. Qed.

Lemma Feed_single s op : is_batch op = false → Feed s op = Feed_op s op.
Proof. by destruct op. Qed.

Lemma Feed_jmp s addr :
  Feed s (OpJmp addr) = set_PC addr (blockPrint (Flush s) addr).
Proof. reflexivity. Qed.

Lemma Feed_step s size :
  Feed s (OpStep size) = set_pending (Some size) (Flush s).
Proof. reflexivity. Qed.

(** A syscall is flushed for and printed; [update] is not called on it. *)
Lemma Feed_syscall s num args ret nested :
  Feed s (OpSyscall num args ret nested) = sysPrint (Flush s) num args ret.
Proof. reflexivity. Qed.

Lemma Feed_syscall_shadow s num args ret nested :
  shadow (Feed s (OpSyscall num args ret nested)) = shadow (Flush s).
Proof. reflexivity. Qed.

Lemma Feed_queued s op :
  is_side_effect op = true → Feed s op = set_effects (effects s ++ [op]) s.
Proof. by destruct op. Qed.

Lemma Feed_op_batch s op :
  is_batch op = true → Feed_op s op = set_effects (effects s ++ [op]) s.
Proof. by destruct op. Qed.

(** C2, as the code has it.  A frame none of whose events is itself a frame
    or a keyframe is fed as its events are, one after the other.  The
    flattening goes one level deep and no further: a frame or keyframe
    that sits directly in a frame is not opened, it joins the queue of side
    effects as one event. *)
Theorem Feed_frame_one_level s ops :
  (Forall (λ op, is_batch op = false) ops →
     Feed s (OpFrame ops) = foldl Feed s ops)
  ∧ (∀ nested, is_batch nested = true →
       Feed s (OpFrame [nested]) = set_effects (effects s ++ [nested]) s).
Proof.
  split.
  - rewrite Feed_frame. intros Hflat. revert s.
    induction Hflat as [|op ops Hop _ IH]; intros s; [reflexivity|].
    cbn [foldl]. by rewrite IH, (Feed_single s op Hop).
  - intros nested Hb. rewrite Feed_frame. cbn [foldl].
    by apply Feed_op_batch.
Qed.

(** C3, as the code has it.  A non-boundary event is appended to the queue
    of side effects whether or not an instruction is pending, and that is
    all [Feed] does with it: nothing is written, the Shadow State and the
    pending instruction stay as they are. *)
Theorem Feed_side_effect_queued s op :
  is_side_effect op = true →
  Feed s op = set_effects (effects s ++ [op]) s
  ∧ effects (Feed s op) = effects s ++ [op]
  ∧ pending (Feed s op) = pending s
  ∧ w (Feed s op) = w s
  ∧ shadow (Feed s op) = shadow s.
Proof. intros Hop. by rewrite (Feed_queued s op Hop). Qed.

(** C6.  A keyframe is handled by a flush followed by [update] on each of
    its events in order.  Its events write nothing: the writer holds what
    the flush left.  No instruction is pending afterwards and the queue is
    the one the flush left.  The instruction of the next step is rendered on
    the state the keyframe produced; so when the keyframe ends with a write
    of [data] at the address the program counter then has, and the memory
    simulation returns [data] when that address is read back, the bytes
    handed to the disassembler are [data]. *)
Theorem Feed_keyframe s ops :
  let flushed := Flush s in
  let s' := Feed s (OpKeyframe ops) in
  s' = foldl update flushed ops
  ∧ w s' = w flushed
  ∧ queue s' = (None, effects flushed)
  ∧ (∀ size,
       w (Flush (Feed s' (OpStep size)))
       = w (insPrint s' (PC s') size (effects s')))
  ∧ (∀ before addr data size,
       ops = before ++ [OpMemWrite addr data] →
       PC s' = addr →
       models.Read
         (models.Write (Mem (foldl update flushed before)) addr data)
         addr (make_bytes size) = data →
       models.Read (Mem s') (PC s') (make_bytes size) = data
       ∧ insPrint_ins s' (PC s') size
         = match models.Disas data addr (Arch s) false with
           | Some dis => dis
           | None => fmt_sharp_x addr +:+ ": " +:+ fmt_x_bytes data
           end).
Proof.
  intros flushed s'.
  assert (Hs' : s' = foldl update flushed ops) by reflexivity.
  destruct (foldl_update_frame ops flushed) as (Hw & Hq & Hl).
  rewrite <- Hs' in Hw, Hq, Hl.
  assert (Hpend : pending s' = None).
  { unfold queue in Hq. injection Hq as -> _. apply Flush_pending. }
  split_and!.
  - exact Hs'.
  - exact Hw.
  - unfold queue in *. injection Hq as _ ->. by rewrite Hpend.
  - intros size. rewrite Feed_step, (Flush_none s' Hpend).
    rewrite (Flush_some_set_w _ size) by reflexivity.
    cbn [w set_pending set_effects set_w]. by rewrite !insPrint_rendering.
  - intros before addr data size -> Hpc Hread.
    assert (Hmem : Mem s' = models.Write (Mem (foldl update flushed before))
                              addr data).
    { rewrite Hs', foldl_app. reflexivity. }
    assert (Harch : Arch s' = Arch s).
    { pose proof (Flush_layout s) as Hfl. fold flushed in Hfl.
      unfold layout in Hl, Hfl. injection Hl as -> _ _ _.
      by injection Hfl as -> _ _ _. }
    unfold insPrint_ins. rewrite Hmem, Hpc, Hread, Harch. done.
Qed.

(** C8.  [Flush] of a pending instruction whose bytes [models.Disas]
    rejects: the primary line starts with the address in [%#x], a colon and
    a space, and the bytes read at the program counter in [%x], padded to
    the instruction column; the flush then goes on as any other, the step
    and the queued effects are applied and the queue is cleared.  ([Flush]
    and [Feed] are total functions into [StreamUI]: the failure of
    [models.Disas] is consumed inside [insPrint] and no error comes out.) *)
Theorem Flush_disas_failure s size :
  pending s = Some size →
  let insmem := models.Read (Mem s) (PC s) (make_bytes size) in
  models.Disas insmem (PC s) (Arch s) false = None →
  let ins := fmt_sharp_x (PC s) +:+ ": " +:+ fmt_x_bytes insmem in
  let col := ins +:+ pad ins (inscol s) in
  ∃ rest extra,
    w (Flush s)
    = w s ++ spreg_lines (effects s) ++ (col +:+ " | " +:+ rest) :: extra
    ∧ shadow (Flush s)
      = shadow (foldl update (update s (OpStep size)) (effects s))
    ∧ queue (Flush s) = (None, []).
Proof.
  intros Hp insmem Hdis ins col.
  assert (Hins : insPrint_ins s (PC s) size = ins).
  { unfold insPrint_ins. fold insmem. by rewrite Hdis. }
  rewrite (Flush_some_set_w s size Hp).
  rewrite insPrint_rendering. unfold rendering. rewrite Hins.
  destruct (mem_accesses (effects s)) as [|m0 ms];
    eexists _, _; (split_and!; [reflexivity|done|done]).
Qed.

(** *** [pad] and the columns of the primary line *)

Lemma string_app_length (a b : string) :
  String.length (a +:+ b) = (String.length a + String.length b)%nat.
Proof.
  induction a as [|c a IH]; [done|].
  change (String c a +:+ b) with (String c (a +:+ b)).
  cbn [String.length]. by rewrite IH.
Qed.

Lemma string_app_empty_r (a : string) : a +:+ EmptyString = a.
Proof.
  induction a as [|c a IH]; [done|].
  change (String c a +:+ EmptyString) with (String c (a +:+ EmptyString)).
  by rewrite IH.
Qed.

Lemma Repeat_space_length n : String.length (Repeat " " n) = n.
Proof.
  induction n as [|n IH]; [done|].
  cbn [Repeat]. rewrite string_app_length, IH. done.
Qed.

Lemma pad_short text to :
  (String.length text < to)%nat →
  pad text to = Repeat " " (to - String.length text)
  ∧ String.length (text +:+ pad text to) = to.
Proof.
  intros Hlt. unfold pad.
  destruct (Nat.leb_spec to (String.length text)) as [Hle|_]; [lia|].
  split; [done|]. rewrite string_app_length, Repeat_space_length. lia.
Qed.

Lemma pad_long text to :
  (to ≤ String.length text)%nat →
  pad text to = EmptyString ∧ text +:+ pad text to = text.
Proof.
  intros Hle. unfold pad.
  destruct (Nat.leb_spec to (String.length text)) as [_|Hlt]; [|lia].
  split; [done|]. apply string_app_empty_r.
Qed.

Lemma mem_accesses_some effs :
  Exists (λ op, is_mem_access op = true) effs →
  ∃ m0 ms, mem_accesses effs = m0 :: ms.
Proof.
  induction 1 as [op effs Hop|op effs _ IH].
  - destruct op; try done; cbn; eauto.
  - destruct IH as (m0 & ms & Hm). unfold mem_accesses in *.
    cbn [flat_map]. rewrite Hm. destruct op; cbn; eauto.
Qed.

Lemma reg_changes_app s effs1 effs2 :
  reg_changes s (effs1 ++ effs2) = reg_changes s effs1 ++ reg_changes s effs2.
Proof. apply flat_map_app. Qed.

Lemma mem_accesses_app effs1 effs2 :
  mem_accesses (effs1 ++ effs2) = mem_accesses effs1 ++ mem_accesses effs2.
Proof. apply flat_map_app. Qed.

(** C9.  The primary line of [insPrint].  Its first column is the
    instruction text followed by [pad]: when the text is shorter than
    [inscol] the padding is the missing spaces and the column is [inscol]
    wide; when the text is [inscol] long or longer the padding is empty and
    the column is the text alone.  The register column follows the first
    [" | "]: it is [regcol] spaces when the effects hold no register
    change, and otherwise the text of the first register change followed by
    its [pad] to [regcol].  When the effects hold no memory access the line
    ends right after the register column, without a second separator,
    whether or not they hold register changes; when they hold one, a second
    [" | "] and the first memory access follow.  The lines after the
    primary line are those of the further register changes, none when
    there is no register change. *)
Theorem primary_line_columns s pc size effs :
  let ins := insPrint_ins s pc size in
  let col := ins +:+ pad ins (inscol s) in
  let reg := match reg_changes s effs with
             | r0 :: _ => r0 +:+ pad r0 (regcol s)
             | [] => Repeat " " (regcol s)
             end in
  let extra := extra_lines (Repeat " " (inscol s)) 0
                 (drop 1 (reg_changes s effs)) (mem_accesses effs) in
  ((String.length ins < inscol s)%nat →
     pad ins (inscol s) = Repeat " " (inscol s - String.length ins)
     ∧ String.length col = inscol s)
  ∧ ((inscol s ≤ String.length ins)%nat →
     pad ins (inscol s) = EmptyString ∧ col = ins)
  ∧ (Forall (λ op, is_reg_write op = false) effs →
       reg = Repeat " " (regcol s) ∧ extra = [])
  ∧ (∀ before num val after,
       effs = before ++ OpReg num val :: after →
       Forall (λ op, is_reg_write op = false) before →
       let r0 := Sprintf_regfmt (regfmt s)
                   (default (Itoa num) (models.RegNames (Arch s) !! num))
                   val in
       reg = r0 +:+ pad r0 (regcol s))
  ∧ (Forall (λ op, is_mem_access op = false) effs →
       w (insPrint s pc size effs)
       = w s ++ spreg_lines effs
         ++ (col +:+ " | " +:+ reg +:+ nl) :: extra)
  ∧ (∀ before op after,
       effs = before ++ op :: after →
       Forall (λ op, is_mem_access op = false) before →
       is_mem_access op = true →
       let m := match op with
                | OpMemRead addr _ => "R " +:+ fmt_x addr
                | OpMemWrite addr _ => "W " +:+ fmt_x addr
                | _ => EmptyString
                end in
       w (insPrint s pc size effs)
       = w s ++ spreg_lines effs
         ++ (col +:+ " | " +:+ reg +:+ " | " +:+ m +:+ nl) :: extra).
Proof.
  intros ins col reg extra. split_and!.
  - apply pad_short.
  - apply pad_long.
  - intros Hnone. unfold reg, extra.
    by rewrite (reg_changes_none s effs Hnone).
  - intros before num val after -> Hbefore r0. unfold reg.
    by rewrite reg_changes_app, (reg_changes_none s before Hbefore).
  - intros Hnone. subst ins col reg extra.
    rewrite insPrint_rendering. unfold rendering. cbn [w set_w].
    by rewrite (mem_accesses_none effs Hnone).
  - intros before op after -> Hbefore Hop m. subst ins col reg extra m.
    rewrite insPrint_rendering. unfold rendering. cbn [w set_w].
    rewrite !mem_accesses_app, (mem_accesses_none before Hbefore).
    by destruct op.
Qed.

(** *** The queue across boundaries *)

Lemma Feed_stepless_boundary s op :
  pending s = None → is_stepless_boundary op = true →
  queue (Feed s op) = (None, effects s).
Proof.
  intros Hp Hop. destruct op; try done.
  - rewrite Feed_on_keyframe, (Flush_none s Hp).
    destruct (foldl_update_frame Ops s) as (_ & -> & _).
    unfold queue. by rewrite Hp.
  - rewrite Feed_jmp, (Flush_none s Hp).
    change (queue s = (None, effects s)). unfold queue. by rewrite Hp.
  - rewrite Feed_syscall, (Flush_none s Hp).
    change (queue s = (None, effects s)). unfold queue. by rewrite Hp.
Qed.

Lemma Feed_stepless_boundaries ops : ∀ s,
  pending s = None → Forall (λ op, is_stepless_boundary op = true) ops →
  queue (foldl Feed s ops) = (None, effects s).
Proof.
  induction ops as [|op ops IH]; intros s Hp Hall.
  { cbn [foldl]. unfold queue. by rewrite Hp. }
  apply Forall_cons_1 in Hall as [Hop Hall]. cbn [foldl].
  pose proof (Feed_stepless_boundary s op Hp Hop) as Hq.
  unfold queue in Hq. injection Hq as Hp' He'.
  rewrite (IH _ Hp' Hall). by rewrite He'.
Qed.

Lemma Feed_side_effects more : ∀ s,
  Forall (λ op, is_side_effect op = true) more →
  foldl Feed s more = set_effects (effects s ++ more) s.
Proof.
  induction more as [|op more IH]; intros s Hall.
  { cbn. rewrite app_nil_r. by destruct s. }
  apply Forall_cons_1 in Hall as [Hop Hall]. cbn [foldl].
  rewrite (Feed_queued s op Hop), (IH _ Hall). cbn.
  by rewrite <- app_assoc.
Qed.

(** C10.  With no instruction pending, [Flush] returns the state as it is,
    queue included.  So the side effects queued at that point are still
    queued after any run of jumps, syscalls and keyframes; the next step
    becomes pending in front of them, later side effects line up behind
    them, and the flush of that step renders them all as the effects of its
    instruction and applies them all to the Shadow State after the step. *)
Theorem queue_survives_boundaries s boundaries size more :
  pending s = None →
  Forall (λ op, is_stepless_boundary op = true) boundaries →
  Forall (λ op, is_side_effect op = true) more →
  let s1 := foldl Feed s boundaries in
  let s2 := foldl Feed s1 (OpStep size :: more) in
  Flush s = s
  ∧ queue s1 = (None, effects s)
  ∧ queue s2 = (Some size, effects s ++ more)
  ∧ w (Flush s2) = w (insPrint s2 (PC s2) size (effects s ++ more))
  ∧ shadow (Flush s2)
    = shadow (foldl update (update s2 (OpStep size)) (effects s ++ more)).
Proof.
  intros Hp Hb Hm s1 s2.
  pose proof (Feed_stepless_boundaries boundaries s Hp Hb) as Hq1.
  fold s1 in Hq1. unfold queue in Hq1. injection Hq1 as Hp1 He1.
  assert (Hs2 : s2 = set_effects (effects s ++ more)
                       (set_pending (Some size) s1)).
  { unfold s2. cbn [foldl]. rewrite Feed_step, (Flush_none s1 Hp1).
    rewrite (Feed_side_effects more _ Hm). cbn. by rewrite He1. }
  assert (Hq2 : queue s2 = (Some size, effects s ++ more)) by by rewrite Hs2.
  unfold queue in Hq2. injection Hq2 as Hp2 He2.
  pose proof (Flush_some_set_w s2 size Hp2) as Hflush. rewrite He2 in Hflush.
  split_and!.
  - by apply Flush_none.
  - unfold queue. by rewrite Hp1, He1.
  - unfold queue. by rewrite Hp2, He2.
  - by rewrite Hflush.
  - by rewrite Hflush.
Qed.

End Properties.

(** ** Further properties of stream.go *)

Section Further.

Context `{C : models.Collaborators}.

Implicit Types (s : StreamUI) (op : Op) (ops : list Op) (out : list string).

(** *** The core of a state *)

Lemma update_core op : ∀ s, update (core s) op = core (update s op).
Proof.
  induction op using Op_nested_ind; intros s; try reflexivity.
  - cbn [update]. change (Arch (core s)) with (Arch s).
    by destruct (_ =? _).
  - rewrite !update_syscall. revert s.
    induction H as [|op ops Hop _ IH]; intros s; [reflexivity|].
    cbn [foldl]. by rewrite Hop, IH.
Qed.

Lemma foldl_update_core ops : ∀ s,
  foldl update (core s) ops = core (foldl update s ops).
Proof.
  induction ops as [|op ops IH]; intros s; [reflexivity|].
  cbn [foldl]. by rewrite update_core, IH.
Qed.

Lemma core_shadow s1 s2 : core s1 = core s2 → shadow s1 = shadow s2.
Proof. intros H. change (shadow (core s1) = shadow (core s2)). by rewrite H. Qed.

Lemma core_insPrint s pc size effs : core (insPrint s pc size effs) = core s.
Proof. by rewrite insPrint_rendering. Qed.

Lemma core_Flush_some s size :
  pending s = Some size →
  core (Flush s) = core (foldl update (update s (OpStep size)) (effects s)).
Proof. intros Hp. by rewrite (Flush_some_set_w s size Hp). Qed.

(** *** The queue holds side effects only *)

Lemma Flush_effects s :
  effects (Flush s) = match pending s with
                      | Some _ => []
                      | None => effects s
                      end.
Proof.
  destruct (pending s) as [size|] eqn:Hp.
  - by rewrite (Flush_some_set_w s size Hp).
  - by rewrite Flush_none.
Qed.

Lemma queue_ok_Flush s : queue_ok s → queue_ok (Flush s).
Proof.
  unfold queue_ok. rewrite Flush_effects.
  destruct (pending s); [constructor|done].
Qed.

Lemma queue_ok_Feed_op s op : queue_ok s → queue_ok (Feed_op s op).
Proof.
  intros Hq. pose proof (queue_ok_Flush s Hq) as Hf.
  destruct op; try exact Hf;
    try (unfold queue_ok; cbn [Feed_op effects set_effects];
         apply Forall_app; split; [exact Hq|by repeat constructor]).
Qed.

Lemma queue_ok_Feed s op : queue_ok s → queue_ok (Feed s op).
Proof.
  intros Hq.
  assert (Hloop : ∀ ops s', queue_ok s' → queue_ok (foldl Feed_op s' ops)).
  { induction ops as [|o ops IH]; intros s' Hs'; [done|].
    cbn [foldl]. by apply IH, queue_ok_Feed_op. }
  destruct op; try (by apply (Hloop [_])).
  - by apply Hloop.
  - rewrite Feed_on_keyframe. unfold queue_ok.
    destruct (foldl_update_frame Ops (Flush s)) as (_ & Hqu & _).
    unfold queue in Hqu. injection Hqu as _ ->. by apply queue_ok_Flush.
Qed.

Lemma queue_ok_stream evs : ∀ s, queue_ok s → queue_ok (foldl Feed s evs).
Proof.
  induction evs as [|ev evs IH]; intros s Hq; [done|].
  cbn [foldl]. by apply IH, queue_ok_Feed.
Qed.

(** A side effect neither reads nor writes the program counter. *)
Lemma update_side_set_PC s op pc :
  is_boundary op = false → update (set_PC pc s) op = set_PC pc (update s op).
Proof.
  destruct op; try done; intros _.
  cbn [update]. change (Arch (set_PC pc s)) with (Arch s).
  by destruct (_ =? _).
Qed.

Lemma update_side_PC s op : is_boundary op = false → PC (update s op) = PC s.
Proof.
  destruct op; try done; intros _. cbn [update]. by destruct (_ =? _).
Qed.

Lemma foldl_update_side_set_PC ops : ∀ s pc,
  Forall (λ op, is_boundary op = false) ops →
  foldl update (set_PC pc s) ops = set_PC pc (foldl update s ops).
Proof.
  induction ops as [|op ops IH]; intros s pc Hall; [done|].
  apply Forall_cons_1 in Hall as [Hop Hall]. cbn [foldl].
  by rewrite (update_side_set_PC s op pc Hop), (IH _ _ Hall).
Qed.

Lemma foldl_update_side_PC ops : ∀ s,
  Forall (λ op, is_boundary op = false) ops → PC (foldl update s ops) = PC s.
Proof.
  induction ops as [|op ops IH]; intros s Hall; [done|].
  apply Forall_cons_1 in Hall as [Hop Hall]. cbn [foldl].
  by rewrite (IH _ Hall), (update_side_PC s op Hop).
Qed.

(** X1.  The queue of a consumer never holds a jump, a step or a syscall:
    a fresh consumer has an empty queue and [Feed] keeps the property, over
    any stream.  Hence a flush moves the program counter by the size of the
    pending instruction and by nothing else. *)
Theorem Flush_advances_PC s0 evs :
  queue_ok s0 →
  let s := foldl Feed s0 evs in
  queue_ok s
  ∧ ∀ size, pending s = Some size → PC (Flush s) = wrap64 (PC s + size).
Proof.
  intros Hq0 s. pose proof (queue_ok_stream evs s0 Hq0) as Hq. fold s in Hq.
  split; [exact Hq|]. intros size Hp.
  rewrite (Flush_some_set_w s size Hp).
  change (PC (set_pending _ (set_effects _ (set_w _ ?x)))) with (PC x).
  by rewrite (foldl_update_side_PC _ _ Hq).
Qed.

(** *** Deferred application against immediate application *)

Lemma core_settled s :
  core (settled s)
  = foldl update
          match pending s with
          | Some size => update (core s) (OpStep size)
          | None => core s
          end
          (effects s).
Proof.
  unfold settled. rewrite <- foldl_update_core.
  destruct (pending s); by rewrite ?update_core.
Qed.

(** When nothing is stranded in the queue, a flush settles the state. *)
Lemma core_Flush_settled s :
  (pending s = None → effects s = []) → core (Flush s) = core (settled s).
Proof.
  intros Hq. unfold settled. destruct (pending s) as [size|] eqn:Hp.
  - by rewrite (core_Flush_some s size Hp).
  - by rewrite (Flush_none s Hp), (Hq eq_refl).
Qed.

Lemma settled_Feed_plain s op :
  queue_ok s → is_plain op = true →
  core (settled (Feed s op)) = core (update (settled s) op).
Proof.
  intros Hq Hop. rewrite <- update_core, !core_settled.
  destruct op; try done;
    try (rewrite (Feed_queued s _ Hop); cbn [pending effects set_effects];
         by rewrite foldl_app).
  - (* jump *)
    rewrite Feed_jmp.
    change (pending (set_PC ?a (blockPrint ?x ?b))) with (pending x).
    change (effects (set_PC ?a (blockPrint ?x ?b))) with (effects x).
    change (core (set_PC ?a (blockPrint ?x ?b))) with (set_PC a (core x)).
    rewrite Flush_pending, Flush_effects.
    destruct (pending s) as [size|] eqn:Hp.
    + by rewrite (core_Flush_some s size Hp), <- foldl_update_core, update_core.
    + rewrite (Flush_none s Hp). by apply foldl_update_side_set_PC.
  - (* step *)
    rewrite Feed_step.
    change (pending (set_pending ?p ?x)) with p.
    change (effects (set_pending ?p ?x)) with (effects x).
    change (core (set_pending ?p ?x)) with (core x).
    rewrite Flush_effects.
    destruct (pending s) as [size|] eqn:Hp.
    + by rewrite (core_Flush_some s size Hp), <- foldl_update_core, update_core.
    + rewrite (Flush_none s Hp). cbn [update].
      rewrite (foldl_update_side_set_PC _ _ _ Hq).
      by rewrite (foldl_update_side_PC _ _ Hq).
Qed.

Lemma settled_stream evs : ∀ s,
  queue_ok s → Forall (λ ev, is_plain ev = true) evs →
  core (settled (foldl Feed s evs)) = core (foldl update (settled s) evs).
Proof.
  induction evs as [|ev evs IH]; intros s Hq Hall; [done|].
  apply Forall_cons_1 in Hall as [Hev Hall]. cbn [foldl].
  rewrite (IH _ (queue_ok_Feed s ev Hq) Hall).
  rewrite <- !foldl_update_core. by rewrite (settled_Feed_plain s ev Hq Hev).
Qed.

(** X2.  Batching changes when an event is applied, not what is applied.
    For a stream of jumps, steps and side effects, fed to a consumer whose
    queue holds side effects only and none without a pending instruction,
    and which leaves no side effect behind without a pending instruction:
    the Shadow State after the final flush is the one [update] produces when
    it is run on every event of the stream in order, from the flushed
    starting state. *)
Theorem Feed_replays_update s0 evs :
  queue_ok s0 →
  (pending s0 = None → effects s0 = []) →
  Forall (λ ev, is_plain ev = true) evs →
  let s := foldl Feed s0 evs in
  (pending s = None → effects s = []) →
  shadow (Flush s) = shadow (foldl update (Flush s0) evs).
Proof.
  intros Hq H0 Hall s Hend. apply core_shadow.
  rewrite (core_Flush_settled s Hend). unfold s.
  rewrite (settled_stream evs s0 Hq Hall).
  rewrite <- !foldl_update_core. by rewrite (core_Flush_settled s0 H0).
Qed.

(** *** What a stream never changes *)

Lemma Feed_op_layout s op : layout (Feed_op s op) = layout s.
Proof.
  destruct op; try reflexivity; cbn [Feed_op].
  - change (layout (update (blockPrint ?x ?a) _)) with (layout x).
    apply Flush_layout.
  - change (layout (set_pending _ ?x)) with (layout x). apply Flush_layout.
  - change (layout (sysPrint ?x _ _ _)) with (layout x). apply Flush_layout.
Qed.

Lemma Feed_layout s op : layout (Feed s op) = layout s.
Proof.
  assert (Hloop : ∀ ops s', layout (foldl Feed_op s' ops) = layout s').
  { induction ops as [|o ops IH]; intros s'; [done|].
    cbn [foldl]. by rewrite IH, Feed_op_layout. }
  destruct op; try apply (Hloop [_]).
  - apply Hloop.
  - rewrite Feed_on_keyframe.
    destruct (foldl_update_frame Ops (Flush s)) as (_ & _ & ->).
    apply Flush_layout.
Qed.

Lemma stream_layout evs : ∀ s, layout (foldl Feed s evs) = layout s.
Proof.
  induction evs as [|ev evs IH]; intros s; [done|].
  cbn [foldl]. by rewrite IH, Feed_layout.
Qed.

Lemma insPrint_prefix s pc size effs : w s `prefix_of` w (insPrint s pc size effs).
Proof. rewrite insPrint_rendering. by eexists. Qed.

Lemma Flush_prefix s : w s `prefix_of` w (Flush s).
Proof.
  destruct (pending s) as [size|] eqn:Hp; [|by rewrite Flush_none].
  rewrite (Flush_some_set_w s size Hp). apply insPrint_prefix.
Qed.

Lemma Feed_op_prefix s op : w s `prefix_of` w (Feed_op s op).
Proof.
  pose proof (Flush_prefix s) as Hf.
  destruct op; try reflexivity; cbn [Feed_op].
  - change (w (update (blockPrint ?x ?a) _)) with (w x ++ [nl +:+ fmt_sharp_x a +:+ nl]).
    by apply prefix_app_r.
  - exact Hf.
  - etrans; [exact Hf|]. by eexists.
Qed.

Lemma Feed_prefix s op : w s `prefix_of` w (Feed s op).
Proof.
  assert (Hloop : ∀ ops s', w s' `prefix_of` w (foldl Feed_op s' ops)).
  { induction ops as [|o ops IH]; intros s'; [done|].
    cbn [foldl]. etrans; [apply Feed_op_prefix|apply IH]. }
  destruct op; try apply (Hloop [_]).
  - apply Hloop.
  - rewrite Feed_on_keyframe.
    destruct (foldl_update_frame Ops (Flush s)) as (-> & _ & _).
    apply Flush_prefix.
Qed.

(** X3.  The writer is append-only and the layout is fixed: whatever the
    stream, what was written before is a prefix of what is written after
    (also across a flush), and the architecture, the register format and the
    two column widths are those the consumer started with. *)
Theorem stream_appends_only s evs :
  let s' := foldl Feed s evs in
  w s `prefix_of` w s'
  ∧ w s' `prefix_of` w (Flush s')
  ∧ layout s' = layout s
  ∧ layout (Flush s') = layout s.
Proof.
  intros s'. split_and!.
  - unfold s'. clear s'. revert s.
    induction evs as [|ev evs IH]; intros s; [done|].
    cbn [foldl]. etrans; [apply Feed_prefix|apply IH].
  - apply Flush_prefix.
  - apply stream_layout.
  - rewrite Flush_layout. apply stream_layout.
Qed.

(** *** The stack pointer *)

Lemma update_sp_mirror op : ∀ s, sp_mirror s → sp_mirror (update s op).
Proof.
  induction op using Op_nested_ind; intros s Hs; try exact Hs.
  - (* register write *)
    intros v'. cbn [update].
    destruct (n =? models.SP (Arch s)) eqn:Hn.
    + apply Z.eqb_eq in Hn. subst n. cbn. rewrite lookup_insert_eq. congruence.
    + apply Z.eqb_neq in Hn. cbn. rewrite lookup_insert_ne by done. apply Hs.
  - (* syscall *)
    rewrite update_syscall. revert s Hs.
    induction H as [|op ops Hop _ IH]; intros s Hs; [exact Hs|].
    cbn [foldl]. by apply IH, Hop.
Qed.

Lemma foldl_update_sp_mirror ops : ∀ s,
  sp_mirror s → sp_mirror (foldl update s ops).
Proof.
  induction ops as [|op ops IH]; intros s Hs; [exact Hs|].
  cbn [foldl]. by apply IH, update_sp_mirror.
Qed.

Lemma sp_mirror_core s : sp_mirror (core s) → sp_mirror s.
Proof. intros H. exact H. Qed.

Lemma Flush_sp_mirror s : sp_mirror s → sp_mirror (Flush s).
Proof.
  intros Hs. destruct (pending s) as [size|] eqn:Hp; [|by rewrite Flush_none].
  apply sp_mirror_core. rewrite (core_Flush_some s size Hp).
  by apply foldl_update_sp_mirror, update_sp_mirror.
Qed.

Lemma Feed_op_sp_mirror s op : sp_mirror s → sp_mirror (Feed_op s op).
Proof.
  intros Hs. pose proof (Flush_sp_mirror s Hs) as Hf.
  destruct op; try exact Hs; exact Hf.
Qed.

Lemma Feed_sp_mirror s op : sp_mirror s → sp_mirror (Feed s op).
Proof.
  intros Hs.
  assert (Hloop : ∀ ops s', sp_mirror s' → sp_mirror (foldl Feed_op s' ops)).
  { induction ops as [|o ops IH]; intros s' Hs'; [done|].
    cbn [foldl]. by apply IH, Feed_op_sp_mirror. }
  destruct op; try (by apply (Hloop [_])).
  - by apply Hloop.
  - rewrite Feed_on_keyframe. by apply foldl_update_sp_mirror, Flush_sp_mirror.
Qed.

(** X4.  The field [SP] follows the stack-pointer register.  On a consumer
    made by [NewStreamUI], after any stream and also after a final flush:
    whenever [Regs] has a value for the register [arch.SP], the field [SP]
    holds that value. *)
Theorem SP_follows_register arch evs :
  let s := foldl Feed (NewStreamUI arch) evs in
  (∀ v, Regs s !! models.SP arch = Some v → SP s = v)
  ∧ (∀ v, Regs (Flush s) !! models.SP arch = Some v → SP (Flush s) = v).
Proof.
  intros s.
  assert (Hs : sp_mirror s).
  { unfold s. clear s. assert (H0 : sp_mirror (NewStreamUI arch)) by done.
    revert H0. generalize (NewStreamUI arch).
    induction evs as [|ev evs IH]; intros s Hs; [exact Hs|].
    cbn [foldl]. by apply IH, Feed_sp_mirror. }
  assert (Harch : Arch s = arch).
  { pose proof (stream_layout evs (NewStreamUI arch)) as Hl. fold s in Hl.
    unfold layout in Hl. by injection Hl as -> _ _ _. }
  assert (Harch' : Arch (Flush s) = arch).
  { pose proof (Flush_layout s) as Hl.
    unfold layout in Hl. injection Hl as Hl _ _ _. by rewrite Hl. }
  split.
  - intros v. rewrite <- Harch at 1. apply Hs.
  - intros v. rewrite <- Harch' at 1. by apply Flush_sp_mirror.
Qed.

(** *** [NewStreamUI] *)

Lemma NewStreamUI_longest_bound arch num name :
  models.RegNames arch !! num = Some name →
  (String.length name ≤ name_width (regfmt (NewStreamUI arch)))%nat.
Proof.
  cbn [NewStreamUI regfmt name_width]. revert num name.
  apply (map_fold_weak_ind
           (λ (r : nat) (m : gmap Z string),
              ∀ num name, m !! num = Some name → (String.length name ≤ r)%nat)).
  - intros num name. by rewrite lookup_empty.
  - intros i x m r Hi IH num name.
    destruct (decide (i = num)) as [->|Hne].
    + rewrite lookup_insert_eq. intros [= ->].
      destruct (Nat.ltb_spec r (String.length name)); lia.
    + rewrite lookup_insert_ne by done. intros Hm%IH.
      destruct (Nat.ltb_spec r (String.length x)); lia.
Qed.

Lemma NewStreamUI_longest_attained arch :
  name_width (regfmt (NewStreamUI arch)) = 0%nat
  ∨ ∃ num name, models.RegNames arch !! num = Some name
                ∧ String.length name = name_width (regfmt (NewStreamUI arch)).
Proof.
  cbn [NewStreamUI regfmt name_width].
  apply (map_fold_weak_ind
           (λ (r : nat) (m : gmap Z string),
              r = 0%nat
              ∨ ∃ num name, m !! num = Some name ∧ String.length name = r)).
  - by left.
  - intros i x m r Hi IH.
    destruct (Nat.ltb_spec r (String.length x)) as [Hlt|Hge].
    + right. exists i, x. by rewrite lookup_insert_eq.
    + destruct IH as [->|(num & name & Hm & Hlen)]; [by left|].
      right. exists num, name. split; [|done].
      rewrite lookup_insert_ne; [done|]. intros ->. congruence.
Qed.

(** X5.  [NewStreamUI] measures the register names: the width of the name
    in the register format is an upper bound of the length of every name of
    [arch.RegNames()], and it is the length of one of them unless it is
    zero.  The register column is as wide as the format needs: the name, the
    five characters of [" = 0x"], and [arch.Bits/4] digits. *)
Theorem NewStreamUI_measures_names arch :
  let s := NewStreamUI arch in
  (∀ num name, models.RegNames arch !! num = Some name →
     (String.length name ≤ name_width (regfmt s))%nat)
  ∧ (name_width (regfmt s) = 0%nat
     ∨ ∃ num name, models.RegNames arch !! num = Some name
                   ∧ String.length name = name_width (regfmt s))
  ∧ val_digits (regfmt s) = (models.Bits arch / 4)%nat
  ∧ regcol s = (name_width (regfmt s) + 5 + val_digits (regfmt s))%nat.
Proof.
  intros s. split_and!; try reflexivity.
  - apply NewStreamUI_longest_bound.
  - apply NewStreamUI_longest_attained.
Qed.

(** *** The digits of [%x] *)

Lemma size_nat_bound (n : nat) : ∀ p : positive,
  Z.pos p < 2 ^ Z.of_nat n → (Pos.size_nat p ≤ n)%nat.
Proof.
  induction n as [|n IH]; intros p Hp.
  { cbn in Hp. lia. }
  rewrite Nat2Z.inj_succ, Z.pow_succ_r in Hp by lia.
  destruct p as [q|q|]; cbn [Pos.size_nat]; [| |lia].
  - apply le_n_S, IH. lia.
  - apply le_n_S, IH. lia.
Qed.

Lemma of_pos_length_bound (d : nat) : ∀ (p : positive) (rest : string),
  (Pos.size_nat p ≤ 4 * d)%nat →
  (String.length (HexString.Raw.of_pos p rest) ≤ d + String.length rest)%nat.
Proof.
  induction d as [|d IH]; intros p rest Hp.
  { destruct p; cbn in Hp; lia. }
  destruct p as [[[[q|q|]|[q|q|]|]|[[q|q|]|[q|q|]|]|]
                |[[[q|q|]|[q|q|]|]|[[q|q|]|[q|q|]|]|]|];
    cbn [HexString.Raw.of_pos String.length Pos.size_nat] in *;
    try lia;
    (etrans; [apply IH; lia|cbn [String.length]; lia]).
Qed.

Lemma fmt_x_digits (val : Z) (d : nat) :
  0 ≤ val < 2 ^ (4 * Z.of_nat d) →
  (String.length (fmt_x val) ≤ 1 `max` d)%nat.
Proof.
  intros [Hlo Hhi]. destruct val as [|p|p]; [cbn; lia| |lia].
  cbn [fmt_x].
  pose proof (of_pos_length_bound d p EmptyString) as Hb.
  cbn [String.length] in Hb. rewrite Nat.add_0_r in Hb.
  etrans; [apply Hb|lia].
  apply size_nat_bound. by rewrite Nat2Z.inj_mul.
Qed.

(** *** The register column *)

Lemma Repeat_length c n :
  String.length (Repeat c n) = (n * String.length c)%nat.
Proof.
  induction n as [|n IH]; [done|].
  cbn [Repeat]. rewrite string_app_length, IH. lia.
Qed.

Lemma lpad_length c width text :
  String.length c = 1%nat →
  String.length (lpad c width text) = (width `max` String.length text)%nat.
Proof.
  intros Hc. unfold lpad. rewrite string_app_length, Repeat_length, Hc. lia.
Qed.

Lemma rune_count_from_le (s : string) : ∀ skip,
  (rune_count_from skip s ≤ String.length s)%nat.
Proof.
  induction s as [|c s IH]; intros skip; [done|].
  cbn [rune_count_from String.length]. destruct skip as [|skip].
  - apply le_n_S, IH.
  - etrans; [apply IH|lia].
Qed.

Lemma RuneCountInString_le (s : string) :
  (RuneCountInString s ≤ String.length s)%nat.
Proof. apply rune_count_from_le. Qed.

Lemma fmt_s_length width text :
  String.length (fmt_s width text)
  = (width - RuneCountInString text + String.length text)%nat.
Proof.
  unfold fmt_s. rewrite string_app_length, Repeat_length.
  cbn [String.length]. lia.
Qed.

Lemma Sprintf_regfmt_length f name val :
  String.length (Sprintf_regfmt f name val)
  = ((name_width f - RuneCountInString name + String.length name) + 5
     + (val_digits f `max` String.length (fmt_x val)))%nat.
Proof.
  unfold Sprintf_regfmt.
  rewrite !string_app_length, fmt_s_length, lpad_length by reflexivity.
  cbn [String.length]. lia.
Qed.

(** The primary line when the first effect is a register write. *)
Lemma insPrint_reg_first s pc size num val effs :
  let ins := insPrint_ins s pc size in
  let col := ins +:+ pad ins (inscol s) in
  let r0 := Sprintf_regfmt (regfmt s)
              (default (Itoa num) (models.RegNames (Arch s) !! num)) val in
  ∃ tail extra,
    w (insPrint s pc size (OpReg num val :: effs))
    = w s ++ spreg_lines effs
      ++ (col +:+ " | " +:+ (r0 +:+ pad r0 (regcol s)) +:+ tail) :: extra.
Proof.
  intros ins col r0. rewrite insPrint_rendering. unfold rendering.
  fold ins col.
  change (mem_accesses (OpReg num val :: effs)) with (mem_accesses effs).
  change (spreg_lines (OpReg num val :: effs)) with (spreg_lines effs).
  change (reg_changes s (OpReg num val :: effs))
    with (r0 :: reg_changes s effs).
  cbn [w set_w]. destruct (mem_accesses effs) as [|m0 ms]; by eexists _, _.
Qed.

(** X6.  A register that [arch.RegNames()] does not know is printed under
    its number in decimal: the register column of the primary line is the
    register format applied to [strconv.Itoa] of the number and the value. *)
Theorem insPrint_unknown_register s pc size num val effs :
  models.RegNames (Arch s) !! num = None →
  let ins := insPrint_ins s pc size in
  let col := ins +:+ pad ins (inscol s) in
  let r0 := Sprintf_regfmt (regfmt s) (Itoa num) val in
  ∃ tail extra,
    w (insPrint s pc size (OpReg num val :: effs))
    = w s ++ spreg_lines effs
      ++ (col +:+ " | " +:+ (r0 +:+ pad r0 (regcol s)) +:+ tail) :: extra.
Proof.
  intros Hnone ins col r0.
  destruct (insPrint_reg_first s pc size num val effs) as (tail & extra & Hw).
  rewrite Hnone in Hw. by exists tail, extra.
Qed.

(** X7.  On a consumer made by [NewStreamUI], after any stream: a register
    change in the register column is never padded, its text is at least
    [regcol] bytes long; and for a register named by the architecture whose
    name has as many runes as bytes (an ASCII name), on an architecture of
    four bits or more, with a value below 16^([arch.Bits/4]), the text is
    exactly [regcol] bytes long, the width of the blank column. *)
Theorem register_column_width arch evs pc size num val effs :
  let s := foldl Feed (NewStreamUI arch) evs in
  let ins := insPrint_ins s pc size in
  let col := ins +:+ pad ins (inscol s) in
  let r0 := Sprintf_regfmt (regfmt s)
              (default (Itoa num) (models.RegNames arch !! num)) val in
  (∃ tail extra,
     w (insPrint s pc size (OpReg num val :: effs))
     = w s ++ spreg_lines effs ++ (col +:+ " | " +:+ r0 +:+ tail) :: extra)
  ∧ (regcol s ≤ String.length r0)%nat
  ∧ (∀ name, models.RegNames arch !! num = Some name →
       RuneCountInString name = String.length name →
       (4 ≤ models.Bits arch)%nat →
       0 ≤ val < 2 ^ (4 * Z.of_nat (models.Bits arch / 4)) →
       String.length r0 = regcol s).
Proof.
  intros s ins col r0.
  pose proof (stream_layout evs (NewStreamUI arch)) as Hl. fold s in Hl.
  assert (Harch : Arch s = arch) by exact (f_equal (λ x, x.1.1.1) Hl).
  assert (Hfmt : regfmt s = regfmt (NewStreamUI arch))
    by exact (f_equal (λ x, x.1.1.2) Hl).
  assert (Hcol : regcol s = regcol (NewStreamUI arch))
    by exact (f_equal (λ x, x.2) Hl).
  pose proof (NewStreamUI_longest_bound arch) as Hbound.
  assert (Hdig : val_digits (regfmt (NewStreamUI arch))
                 = (models.Bits arch / 4)%nat) by reflexivity.
  assert (Hfit : regcol (NewStreamUI arch)
                 = (name_width (regfmt (NewStreamUI arch)) + 5
                    + val_digits (regfmt (NewStreamUI arch)))%nat)
    by reflexivity.
  rewrite <- Hfmt in Hbound, Hdig, Hfit. rewrite <- Hcol in Hfit.
  assert (Hlen : (regcol s ≤ String.length r0)%nat).
  { unfold r0. rewrite Sprintf_regfmt_length, Hfit.
    match goal with |- context [RuneCountInString ?n] =>
      pose proof (RuneCountInString_le n) end. lia. }
  split_and!.
  - destruct (insPrint_reg_first s pc size num val effs) as (tail & extra & Hw).
    rewrite Harch in Hw. fold ins col r0 in Hw.
    rewrite (proj2 (pad_long r0 (regcol s) Hlen)) in Hw.
    by exists tail, extra.
  - exact Hlen.
  - intros name Hname Hascii Hbits Hval. unfold r0.
    rewrite Sprintf_regfmt_length, Hfit, Hname. cbn [default id].
    rewrite Hascii.
    pose proof (Hbound num name Hname).
    pose proof (fmt_x_digits val _ Hval) as Hd.
    assert (1 ≤ models.Bits arch / 4)%nat
      by (apply Nat.div_le_lower_bound; lia).
    rewrite <- Hdig in *. lia.
Qed.

(** *** How many lines an instruction takes *)

Lemma spreg_lines_length effs :
  length (spreg_lines effs) = length (List.filter is_spreg effs).
Proof.
  induction effs as [|op effs IH]; [done|].
  change (spreg_lines (op :: effs))
    with (match op with
          | OpSpReg _ _ => ["<unimplemented special register>" +:+ nl]
          | _ => []
          end ++ spreg_lines effs).
  destruct op; cbn [List.filter is_spreg app length]; by rewrite IH.
Qed.

Lemma reg_changes_length s effs :
  length (reg_changes s effs) = length (List.filter is_reg_write effs).
Proof.
  induction effs as [|op effs IH]; [done|].
  destruct op;
    try (change (reg_changes s (?o :: effs)) with (reg_changes s effs);
         cbn [List.filter is_reg_write]; exact IH).
  change (reg_changes s (OpReg Num Val :: effs))
    with (Sprintf_regfmt (regfmt s)
            (default (Itoa Num) (models.RegNames (Arch s) !! Num)) Val
          :: reg_changes s effs).
  cbn [List.filter is_reg_write length]. by rewrite IH.
Qed.

Lemma extra_lines_length inspad rest : ∀ i mem,
  length (extra_lines inspad i rest mem) = length rest.
Proof.
  induction rest as [|r rest IH]; intros i mem; [done|].
  cbn [extra_lines length]. by rewrite IH.
Qed.

(** X8.  [insPrint] writes one marker line for each special-register write
    among the effects, then one line for each register change, and one line
    in all when there is no register change.  Memory accesses never add a
    line: without a register change the rendering is the marker lines and
    the primary line, whatever the number of memory accesses. *)
Theorem insPrint_line_count s pc size effs :
  length (w (insPrint s pc size effs))
  = (length (w s) + length (List.filter is_spreg effs)
     + 1 `max` length (List.filter is_reg_write effs))%nat
  ∧ (Forall (λ op, is_reg_write op = false) effs →
       ∃ primary, w (insPrint s pc size effs)
                  = w s ++ spreg_lines effs ++ [primary]).
Proof.
  rewrite insPrint_rendering. unfold rendering. cbn [w set_w]. split.
  - rewrite !length_app. cbn [length].
    rewrite extra_lines_length, length_drop, spreg_lines_length,
      reg_changes_length. lia.
  - intros Hnone. rewrite (reg_changes_none s effs Hnone). by eexists.
Qed.

(** *** Events that leave no trace *)

Lemma StreamUI_eq s1 s2 :
  core s1 = core s2 → w s1 = w s2 → pending s1 = pending s2 →
  effects s1 = effects s2 → s1 = s2.
Proof.
  destruct s1, s2. unfold core. cbn. intros [= -> -> -> -> -> -> -> -> ->].
  by intros -> -> ->.
Qed.

Lemma update_inert s op : is_inert op = true → update s op = s.
Proof. by destruct op. Qed.

Lemma rendering_inert s pc size effs op :
  is_inert op = true →
  rendering s pc size (effs ++ [op]) = rendering s pc size effs.
Proof.
  intros Hop. unfold rendering, spreg_lines, reg_changes, mem_accesses.
  rewrite !flat_map_app. destruct op; try done; cbn [flat_map];
    by rewrite !app_nil_r.
Qed.

(** X9.  A frame, a keyframe or an exit that arrives inside a frame while an
    instruction is pending leaves no trace: it is queued, and the flush of
    the instruction gives the very state it would have given without it.
    In particular the events inside a nested frame or keyframe are neither
    applied nor rendered. *)
Theorem Flush_drops_inert s size op :
  pending s = Some size → is_inert op = true →
  Flush (Feed s (OpFrame [op])) = Flush s.
Proof.
  intros Hp Hop.
  assert (Hfeed : Feed s (OpFrame [op]) = set_effects (effects s ++ [op]) s)
    by (by destruct op).
  rewrite Hfeed. set (s' := set_effects _ s).
  assert (Hp' : pending s' = Some size) by exact Hp.
  apply StreamUI_eq.
  - rewrite (core_Flush_some s' size Hp'), (core_Flush_some s size Hp).
    rewrite <- !foldl_update_core, <- !update_core.
    change (core s') with (core s). change (effects s') with (effects s ++ [op]).
    rewrite foldl_app. cbn [foldl]. by rewrite (update_inert _ op Hop).
  - rewrite (Flush_some_set_w s' size Hp'), (Flush_some_set_w s size Hp).
    cbn [w set_pending set_effects set_w]. rewrite !insPrint_rendering.
    cbn [w set_w]. change (effects s') with (effects s ++ [op]).
    change (w s') with (w s). change (PC s') with (PC s).
    rewrite (rendering_inert _ _ _ _ _ Hop). reflexivity.
  - by rewrite !Flush_pending.
  - rewrite !Flush_effects, Hp', Hp. reflexivity.
Qed.

(** *** Batches *)

Lemma foldl_update_pending ops s : pending (foldl update s ops) = pending s.
Proof.
  destruct (foldl_update_frame ops s) as (_ & Hq & _).
  exact (f_equal fst Hq).
Qed.

(** X10.  Where a producer cuts its batches does not matter: a frame fed in
    two pieces is the frame fed whole, and so is a keyframe (the flush of
    the second piece finds nothing pending); an empty frame changes nothing
    and an empty keyframe is a flush. *)
Theorem batches_split s ops1 ops2 :
  Feed s (OpFrame (ops1 ++ ops2))
  = Feed (Feed s (OpFrame ops1)) (OpFrame ops2)
  ∧ Feed s (OpKeyframe (ops1 ++ ops2))
    = Feed (Feed s (OpKeyframe ops1)) (OpKeyframe ops2)
  ∧ Feed s (OpFrame []) = s
  ∧ Feed s (OpKeyframe []) = Flush s.
Proof.
  split_and!; try reflexivity.
  - rewrite !Feed_frame. apply foldl_app.
  - rewrite !Feed_on_keyframe, foldl_app.
    rewrite (Flush_none (foldl update (Flush s) ops1)); [done|].
    rewrite foldl_update_pending. apply Flush_pending.
Qed.

(** *** Boundaries *)

(** X11.  With an instruction pending, every boundary first writes the lines
    of that instruction, rendered on the state the boundary found, and only
    then its own line: the block header for a jump, the syscall line for a
    syscall, nothing for a step or a keyframe. *)
Theorem boundary_flushes_first s size :
  pending s = Some size →
  let flushed := w (insPrint s (PC s) size (effects s)) in
  (∀ addr, w (Feed s (OpJmp addr))
           = flushed ++ [nl +:+ fmt_sharp_x addr +:+ nl])
  ∧ (∀ num args ret nested,
       w (Feed s (OpSyscall num args ret nested))
       = flushed ++ ["syscall(" +:+ fmt_d num +:+ ", ["
                     +:+ Join (fmt_sharp_x <$> args) ", "
                     +:+ "]) = " +:+ fmt_d ret +:+ nl])
  ∧ (∀ size', w (Feed s (OpStep size')) = flushed)
  ∧ (∀ ops, w (Feed s (OpKeyframe ops)) = flushed).
Proof.
  intros Hp flushed.
  assert (Hf : w (Flush s) = flushed) by by rewrite (Flush_some_set_w s size Hp).
  split_and!.
  - intros addr. rewrite Feed_jmp. by rewrite <- Hf.
  - intros num args ret nested. rewrite Feed_syscall. by rewrite <- Hf.
  - intros size'. by rewrite Feed_step.
  - intros ops. rewrite Feed_on_keyframe.
    by destruct (foldl_update_frame ops (Flush s)) as (-> & _ & _).
Qed.

(** X12.  After a jump the program counter is the target and nothing is
    pending; the first instruction stepped after it is rendered at the
    target, from the memory the flush before the jump left. *)
Theorem jump_target_rendered s addr size :
  let s1 := Feed s (OpJmp addr) in
  PC s1 = addr
  ∧ pending s1 = None
  ∧ Mem s1 = Mem (Flush s)
  ∧ effects s1 = effects (Flush s)
  ∧ w (Flush (Feed s1 (OpStep size)))
    = w (insPrint s1 addr size (effects s1))
  ∧ insPrint_ins s1 addr size = insPrint_ins (Flush s) addr size.
Proof.
  intros s1.
  assert (Hp : pending s1 = None).
  { unfold s1. rewrite Feed_jmp.
    change (pending (set_PC ?a (blockPrint ?x ?b))) with (pending x).
    apply Flush_pending. }
  split_and!; try reflexivity; [exact Hp|].
  rewrite Feed_step, (Flush_none s1 Hp).
  rewrite (Flush_some_set_w _ size) by reflexivity.
  cbn [w set_pending set_effects set_w]. by rewrite !insPrint_rendering.
Qed.

(** X13.  A register write queued behind a pending instruction is in the
    Shadow State once the instruction is flushed: [Regs] holds the value
    under the register's number, and [SP] holds it too when the register is
    the stack pointer.  The same for a special register and [SpRegs]. *)
Theorem queued_write_applied s size num :
  pending s = Some size →
  (∀ val, let s' := Flush (Feed s (OpReg num val)) in
          Regs s' !! num = Some val
          ∧ (num = models.SP (Arch s) → SP s' = val))
  ∧ (∀ val, SpRegs (Flush (Feed s (OpSpReg num val))) !! num = Some val).
Proof.
  intros Hp. split.
  - intros val s'. unfold s'. rewrite (Feed_queued s (OpReg num val) eq_refl).
    rewrite (Flush_some_set_w _ size) by exact Hp.
    cbn [effects set_effects]. rewrite foldl_app. cbn [foldl].
    change (update (set_effects ?e s) ?o) with (set_effects e (update s o)).
    set (x := foldl update _ (effects s)).
    assert (Harch : Arch x = Arch s).
    { unfold x.
      destruct (foldl_update_frame (effects s)
                  (set_effects (effects s ++ [OpReg num val])
                     (update s (OpStep size)))) as (_ & _ & Hl).
      exact (f_equal (λ y, y.1.1.1) Hl). }
    cbn [update]. rewrite Harch. split.
    + cbn. destruct (_ =? _); cbn; apply lookup_insert_eq.
    + intros ->. by rewrite Z.eqb_refl.
  - intros val. rewrite (Feed_queued s (OpSpReg num val) eq_refl).
    rewrite (Flush_some_set_w _ size) by exact Hp.
    cbn [effects set_effects]. rewrite foldl_app. cbn.
    apply lookup_insert_eq.
Qed.

(** *** The program counter stays a [uint64] *)

Lemma update_PC_uint64 op : ∀ s,
  targets_ok op = true → is_uint64 (PC s) → is_uint64 (PC (update s op)).
Proof.
  induction op using Op_nested_ind; intros s Hok Hpc; try exact Hpc.
  - cbn in *. unfold is_uint64. lia.
  - cbn. unfold is_uint64, wrap64. apply Z.mod_pos_bound. lia.
  - cbn [update]. by destruct (_ =? _).
  - rewrite update_syscall. cbn [targets_ok] in Hok. revert s Hpc.
    induction H as [|op ops Hop _ IH]; intros s Hpc; [exact Hpc|].
    cbn [forallb] in Hok. apply andb_prop in Hok as [Hok1 Hok2].
    cbn [foldl]. apply (IH Hok2), (Hop _ Hok1 Hpc).
Qed.

Lemma foldl_update_PC_uint64 ops : ∀ s,
  forallb targets_ok ops = true → is_uint64 (PC s) →
  is_uint64 (PC (foldl update s ops)).
Proof.
  induction ops as [|op ops IH]; intros s Hok Hpc; [exact Hpc|].
  cbn [forallb] in Hok. apply andb_prop in Hok as [Hok1 Hok2].
  cbn [foldl]. by apply (IH _ Hok2), update_PC_uint64.
Qed.

Lemma Flush_PC_uint64 s :
  queue_ok s → is_uint64 (PC s) → is_uint64 (PC (Flush s)).
Proof.
  intros Hq Hpc. destruct (pending s) as [size|] eqn:Hp.
  - rewrite (Flush_some_set_w s size Hp).
    change (PC (set_pending _ (set_effects _ (set_w _ ?x)))) with (PC x).
    rewrite (foldl_update_side_PC _ _ Hq). cbn.
    unfold is_uint64, wrap64. apply Z.mod_pos_bound. lia.
  - by rewrite Flush_none.
Qed.

Lemma Feed_op_PC_uint64 s op :
  queue_ok s → targets_ok op = true → is_uint64 (PC s) →
  is_uint64 (PC (Feed_op s op)).
Proof.
  intros Hq Hok Hpc. pose proof (Flush_PC_uint64 s Hq Hpc) as Hf.
  destruct op; try exact Hpc; try exact Hf.
  cbn in *. unfold is_uint64. lia.
Qed.

Lemma Feed_PC_uint64 s op :
  queue_ok s → targets_ok op = true → is_uint64 (PC s) →
  is_uint64 (PC (Feed s op)).
Proof.
  intros Hq Hok Hpc.
  assert (Hloop : ∀ ops s', queue_ok s' → forallb targets_ok ops = true →
                    is_uint64 (PC s') → is_uint64 (PC (foldl Feed_op s' ops))).
  { induction ops as [|o ops IH]; intros s' Hq' Hok' Hpc'; [done|].
    cbn [forallb] in Hok'. apply andb_prop in Hok' as [Hok1 Hok2].
    cbn [foldl]. apply IH; [by apply queue_ok_Feed_op|done|].
    by apply Feed_op_PC_uint64. }
  destruct op;
    try (apply (Hloop [_]); [done|by cbn [forallb]; rewrite Hok|done]).
  - by apply Hloop.
  - rewrite Feed_on_keyframe. apply foldl_update_PC_uint64; [done|].
    by apply Flush_PC_uint64.
Qed.

(** X14.  The program counter stays within [uint64].  From a consumer whose
    counter is in range and whose queue holds side effects only, after any
    stream whose jump targets are in range, the counter is in range, also
    after a final flush: a step that would pass 2^64 wraps around. *)
Theorem PC_stays_uint64 s0 evs :
  queue_ok s0 → is_uint64 (PC s0) → forallb targets_ok evs = true →
  let s := foldl Feed s0 evs in
  is_uint64 (PC s) ∧ is_uint64 (PC (Flush s)).
Proof.
  intros Hq Hpc Hok s.
  assert (Hs : queue_ok s ∧ is_uint64 (PC s)).
  { unfold s. clear s. revert s0 Hq Hpc Hok.
    induction evs as [|ev evs IH]; intros s0 Hq Hpc Hok; [done|].
    cbn [forallb] in Hok. apply andb_prop in Hok as [Hok1 Hok2].
    cbn [foldl]. apply IH; [by apply queue_ok_Feed| |done].
    by apply Feed_PC_uint64. }
  destruct Hs as [Hqs Hpcs]. split; [done|]. by apply Flush_PC_uint64.
Qed.

(** *** What [update] skips *)

(** X15.  The contents of a keyframe are applied one level deep.  A frame
    or a keyframe nested in a keyframe, like a memory read or an exit, is
    skipped with all it contains: the keyframe without that event has the
    same effect. *)
Theorem keyframe_skips_nested s before op after :
  is_skipped op = true →
  Feed s (OpKeyframe (before ++ op :: after))
  = Feed s (OpKeyframe (before ++ after)).
Proof.
  intros Hop. rewrite !Feed_on_keyframe, !foldl_app. cbn [foldl].
  by destruct op.
Qed.

(** *** Every chunk is a line *)

Lemma string_app_assoc (a b c : string) : (a +:+ b) +:+ c = a +:+ (b +:+ c).
Proof.
  induction a as [|ch a IH]; [done|].
  change (String ch a +:+ b) with (String ch (a +:+ b)).
  change (String ch (a +:+ b) +:+ c) with (String ch ((a +:+ b) +:+ c)).
  change (String ch a +:+ (b +:+ c)) with (String ch (a +:+ (b +:+ c))).
  by rewrite IH.
Qed.

Lemma ends_with_nl_app a b : ends_with_nl b → ends_with_nl (a +:+ b).
Proof.
  intros [text ->]. exists (a +:+ text). by rewrite string_app_assoc.
Qed.

Lemma ends_with_nl_nl : ends_with_nl nl.
Proof. by exists EmptyString. Qed.

Lemma extra_lines_nl inspad rest : ∀ i mem,
  Forall ends_with_nl (extra_lines inspad i rest mem).
Proof.
  induction rest as [|r rest IH]; intros i mem; [constructor|].
  cbn [extra_lines]. constructor; [|apply IH].
  destruct (mem !! _); repeat apply ends_with_nl_app; apply ends_with_nl_nl.
Qed.

Lemma spreg_lines_nl effs : Forall ends_with_nl (spreg_lines effs).
Proof.
  induction effs as [|op effs IH]; [constructor|].
  destruct op; try exact IH.
  constructor; [|exact IH]. apply ends_with_nl_app, ends_with_nl_nl.
Qed.

Lemma rendering_nl s pc size effs :
  Forall ends_with_nl (rendering s pc size effs).
Proof.
  unfold rendering. apply Forall_app. split; [apply spreg_lines_nl|].
  constructor; [|apply extra_lines_nl].
  destruct (mem_accesses effs);
    repeat apply ends_with_nl_app; apply ends_with_nl_nl.
Qed.

Lemma Flush_nl s : Forall ends_with_nl (w s) → Forall ends_with_nl (w (Flush s)).
Proof.
  intros Hw. destruct (pending s) as [size|] eqn:Hp; [|by rewrite Flush_none].
  rewrite (Flush_some_set_w s size Hp), insPrint_rendering.
  cbn [w set_pending set_effects set_w].
  apply Forall_app. split; [exact Hw|apply rendering_nl].
Qed.

Lemma Feed_op_nl s op :
  Forall ends_with_nl (w s) → Forall ends_with_nl (w (Feed_op s op)).
Proof.
  intros Hw. pose proof (Flush_nl s Hw) as Hf.
  destruct op; try exact Hw; try exact Hf; cbn [Feed_op].
  - change (w (update (blockPrint ?x ?a) _))
      with (w x ++ [nl +:+ fmt_sharp_x a +:+ nl]).
    apply Forall_app. split; [exact Hf|].
    repeat constructor. repeat apply ends_with_nl_app. apply ends_with_nl_nl.
  - unfold sysPrint, Fprintf. cbn [w].
    apply Forall_app. split; [exact Hf|].
    repeat constructor. repeat apply ends_with_nl_app. apply ends_with_nl_nl.
Qed.

Lemma Feed_nl s op :
  Forall ends_with_nl (w s) → Forall ends_with_nl (w (Feed s op)).
Proof.
  intros Hw.
  assert (Hloop : ∀ ops s', Forall ends_with_nl (w s') →
                    Forall ends_with_nl (w (foldl Feed_op s' ops))).
  { induction ops as [|o ops IH]; intros s' Hs'; [done|].
    cbn [foldl]. by apply IH, Feed_op_nl. }
  destruct op; try (by apply (Hloop [_])).
  - by apply Hloop.
  - rewrite Feed_on_keyframe.
    destruct (foldl_update_frame Ops (Flush s)) as (-> & _ & _).
    by apply Flush_nl.
Qed.

(** X16.  The output is made of lines: when every chunk the writer holds
    ends with a line feed, so does every chunk it holds after any stream,
    and after a final flush. *)
Theorem output_is_lines s evs :
  Forall ends_with_nl (w s) →
  let s' := foldl Feed s evs in
  Forall ends_with_nl (w s') ∧ Forall ends_with_nl (w (Flush s')).
Proof.
  intros Hw s'.
  assert (Hs' : Forall ends_with_nl (w s')).
  { unfold s'. clear s'. revert s Hw.
    induction evs as [|ev evs IH]; intros s Hw; [done|].
    cbn [foldl]. by apply IH, Feed_nl. }
  split; [exact Hs'|by apply Flush_nl].
Qed.

End Further.

(** ** The claims on concrete traces *)

#[local] Existing Instance Sim.collaborators.

(** C1.  A syscall whose nested event writes 0xc3 at 0x2000, followed by a
    one-byte step at 0x2000.  [Feed] prints the syscall and leaves the
    Shadow State alone, so at the flush the byte read for the instruction
    is still 0x00 and the line shows the raw byte; the same write brought by
    a keyframe is seen, and the line shows [ret]. *)
Theorem Feed_syscall_nested_write_lost :
  let s := foldl Feed Sim.s_entry [Sim.sys_read; OpStep 1] in
  let k := foldl Feed Sim.s_entry
             [OpKeyframe [OpMemWrite 0x2000 [xc3]]; OpStep 1] in
  shadow (Feed Sim.s_entry Sim.sys_read) = shadow Sim.s_entry
  ∧ PC s = 0x2000
  ∧ models.Read (Mem s) (PC s) (make_bytes 1) = [x00]
  ∧ w (Flush s)
    = w s ++ ["0x2000: 00" +:+ Repeat " " 50 +:+ " | "
              +:+ Repeat " " 16 +:+ nl]
  ∧ models.Read (Mem k) (PC k) (make_bytes 1) = [xc3]
  ∧ w (Flush k)
    = w k ++ ["ret" +:+ Repeat " " 57 +:+ " | " +:+ Repeat " " 16 +:+ nl].
Proof. vm_compute. done. Qed.

(** C2 as stated fails.  A frame holding a frame holding a step: fed at top
    level the inner frame is opened and its step becomes pending; inside
    the outer frame it is queued as a side effect and nothing is pending. *)
Lemma Feed_frame_nested_counterexample :
  let inner := OpFrame [OpStep 4] in
  pending (foldl Feed Sim.s0 [inner]) = Some 4
  ∧ pending (Feed Sim.s0 (OpFrame [inner])) = None
  ∧ Feed Sim.s0 (OpFrame [inner]) ≠ foldl Feed Sim.s0 [inner].
Proof.
  split_and!; [reflexivity..|].
  intros Heq. apply (f_equal pending) in Heq. vm_compute in Heq. done.
Qed.

Lemma Feed_frame_one_level_witness :
  let ops := [OpJmp 0x2000; OpStep 1; OpReg 0 1; OpStep 1] in
  let nested := OpKeyframe [OpJmp 0x2000] in
  Forall (λ op, is_batch op = false) ops
  ∧ is_batch nested = true
  ∧ Feed Sim.s_entry (OpFrame ops) = foldl Feed Sim.s_entry ops
  ∧ Feed Sim.s_entry (OpFrame [nested])
    = set_effects (effects Sim.s_entry ++ [nested]) Sim.s_entry.
Proof.
  intros ops nested.
  assert (Hflat : Forall (λ op, is_batch op = false) ops)
    by (repeat constructor).
  assert (Hnested : is_batch nested = true) by reflexivity.
  split_and!; [exact Hflat | exact Hnested | |].
  - exact (proj1 (Feed_frame_one_level Sim.s_entry ops) Hflat).
  - exact (proj2 (Feed_frame_one_level Sim.s_entry ops) nested Hnested).
Defined.

(** C3 as stated fails.  A register write fed to a fresh consumer, which has
    no instruction pending, makes the queue of side effects grow. *)
Lemma Feed_side_effect_no_pending_counterexample :
  pending Sim.s0 = None
  ∧ effects Sim.s0 = []
  ∧ effects (Feed Sim.s0 (OpReg 0 1)) = [OpReg 0 1]
  ∧ ¬ (length (effects (Feed Sim.s0 (OpReg 0 1)))
       ≤ length (effects Sim.s0))%nat.
Proof. split_and!; [reflexivity..|]. vm_compute. lia. Qed.

Lemma Feed_side_effect_queued_witness :
  let op := OpMemWrite 0x2000 [xaa] in
  is_side_effect op = true
  ∧ Feed Sim.s_entry op = set_effects (effects Sim.s_entry ++ [op]) Sim.s_entry
  ∧ effects (Feed Sim.s_entry op) = effects Sim.s_entry ++ [op]
  ∧ pending (Feed Sim.s_entry op) = pending Sim.s_entry
  ∧ w (Feed Sim.s_entry op) = w Sim.s_entry
  ∧ shadow (Feed Sim.s_entry op) = shadow Sim.s_entry.
Proof.
  intros op.
  assert (Hop : is_side_effect op = true) by reflexivity.
  split; [exact Hop|].
  exact (Feed_side_effect_queued Sim.s_entry op Hop).
Defined.

Lemma Flush_contract_witness :
  let s := foldl Feed Sim.s_entry [OpStep 1; OpReg 0 1] in
  let rendered := insPrint s (PC s) 1 (effects s) in
  (pending s = Some 1
   ∧ w (Flush s) = w rendered
   ∧ shadow rendered = shadow s
   ∧ PC (update rendered (OpStep 1)) = wrap64 (PC s + 1)
   ∧ shadow (Flush s) = shadow (foldl update (update s (OpStep 1)) (effects s))
   ∧ Flush s
     = set_pending None (set_effects []
         (foldl update (update rendered (OpStep 1)) (effects s)))
   ∧ effects (Flush s) = [] ∧ pending (Flush s) = None)
  ∧ (pending Sim.s_entry = None ∧ Flush Sim.s_entry = Sim.s_entry).
Proof.
  intros s rendered.
  assert (Hsome : pending s = Some 1) by reflexivity.
  assert (Hnone : pending Sim.s_entry = None) by reflexivity.
  split.
  - split; [exact Hsome|].
    exact (proj1 (Flush_contract s) 1 Hsome).
  - split; [exact Hnone|].
    exact (proj2 (Flush_contract Sim.s_entry) Hnone).
Defined.

Lemma Feed_keyframe_witness :
  let s := foldl Feed Sim.s_entry [OpStep 1] in
  let ops := [OpMemWrite 0x2001 [x90]] in
  let s' := Feed s (OpKeyframe ops) in
  ops = [] ++ [OpMemWrite 0x2001 [x90]]
  ∧ PC s' = 0x2001
  ∧ models.Read
      (models.Write (Mem (foldl update (Flush s) [])) 0x2001 [x90])
      0x2001 (make_bytes 1) = [x90]
  ∧ models.Read (Mem s') (PC s') (make_bytes 1) = [x90]
  ∧ insPrint_ins s' (PC s') 1
    = match models.Disas [x90] 0x2001 (Arch s) false with
      | Some dis => dis
      | None => fmt_sharp_x 0x2001 +:+ ": " +:+ fmt_x_bytes [x90]
      end.
Proof.
  intros s ops s'.
  assert (Hops : ops = [] ++ [OpMemWrite 0x2001 [x90]]) by reflexivity.
  assert (Hpc : PC s' = 0x2001) by reflexivity.
  assert (Hread : models.Read
            (models.Write (Mem (foldl update (Flush s) [])) 0x2001 [x90])
            0x2001 (make_bytes 1) = [x90]) by reflexivity.
  split_and!; [exact Hops | exact Hpc | exact Hread | |].
  - exact (proj1 (proj2 (proj2 (proj2 (proj2 (Feed_keyframe s ops))))
                    [] 0x2001 [x90] 1 Hops Hpc Hread)).
  - exact (proj2 (proj2 (proj2 (proj2 (proj2 (Feed_keyframe s ops))))
                    [] 0x2001 [x90] 1 Hops Hpc Hread)).
Defined.

Lemma Flush_disas_failure_witness :
  let s := foldl Feed Sim.s_entry [OpStep 1; OpSpReg 2 [x01]; OpReg 0 1] in
  let ins := "0x2000: 00" in
  let col := ins +:+ pad ins (inscol s) in
  pending s = Some 1
  ∧ models.Disas (models.Read (Mem s) (PC s) (make_bytes 1)) (PC s) (Arch s)
      false = None
  ∧ ∃ rest extra,
      w (Flush s)
      = w s ++ spreg_lines (effects s) ++ (col +:+ " | " +:+ rest) :: extra
      ∧ shadow (Flush s)
        = shadow (foldl update (update s (OpStep 1)) (effects s))
      ∧ queue (Flush s) = (None, []).
Proof.
  intros s ins col.
  assert (Hp : pending s = Some 1) by reflexivity.
  assert (Hdis : models.Disas (models.Read (Mem s) (PC s) (make_bytes 1))
                   (PC s) (Arch s) false = None) by reflexivity.
  split_and!; [exact Hp | exact Hdis |].
  exact (Flush_disas_failure s 1 Hp Hdis).
Defined.

Lemma primary_line_columns_witness :
  let s := Sim.s_entry in
  let short := insPrint_ins s 0x2000 1 in
  let long := insPrint_ins s 0x2000 30 in
  let col := short +:+ pad short (inscol s) in
  let r0 := Sprintf_regfmt (regfmt s)
              (default (Itoa 0) (models.RegNames (Arch s) !! 0)) 1 in
  ((String.length short < inscol s)%nat
   ∧ pad short (inscol s) = Repeat " " (inscol s - String.length short)
   ∧ String.length col = inscol s)
  ∧ ((inscol s ≤ String.length long)%nat
     ∧ pad long (inscol s) = EmptyString
     ∧ long +:+ pad long (inscol s) = long)
  ∧ (Forall (λ op, is_reg_write op = false) [OpExit]
     ∧ Forall (λ op, is_mem_access op = false) [OpExit]
     ∧ w (insPrint s 0x2000 1 [OpExit])
       = w s ++ [col +:+ " | " +:+ Repeat " " (regcol s) +:+ nl])
  ∧ (Forall (λ op, is_mem_access op = false) [OpExit; OpReg 0 1]
     ∧ w (insPrint s 0x2000 1 [OpExit; OpReg 0 1])
       = w s ++ [col +:+ " | " +:+ (r0 +:+ pad r0 (regcol s)) +:+ nl])
  ∧ (is_mem_access (OpMemRead 16 []) = true
     ∧ w (insPrint s 0x2000 1 [OpReg 0 1; OpMemRead 16 []])
       = w s ++ [col +:+ " | " +:+ (r0 +:+ pad r0 (regcol s))
                 +:+ " | " +:+ ("R " +:+ fmt_x 16) +:+ nl]).
Proof.
  intros s short long col r0.
  assert (Hshort : (String.length short < inscol s)%nat)
    by (vm_compute; lia).
  assert (Hlong : (inscol s ≤ String.length long)%nat)
    by (vm_compute; lia).
  assert (Hnoreg : Forall (λ op, is_reg_write op = false) [OpExit])
    by (repeat constructor).
  assert (Hnomem : Forall (λ op, is_mem_access op = false) [OpExit])
    by (repeat constructor).
  assert (Hnomem' : Forall (λ op, is_mem_access op = false) [OpExit; OpReg 0 1])
    by (repeat constructor).
  assert (Hmem : is_mem_access (OpMemRead 16 []) = true) by reflexivity.
  split_and!.
  - exact Hshort.
  - exact (proj1 (proj1 (primary_line_columns s 0x2000 1 []) Hshort)).
  - exact (proj2 (proj1 (primary_line_columns s 0x2000 1 []) Hshort)).
  - exact Hlong.
  - exact (proj1 (proj1 (proj2 (primary_line_columns s 0x2000 30 [])) Hlong)).
  - exact (proj2 (proj1 (proj2 (primary_line_columns s 0x2000 30 [])) Hlong)).
  - exact Hnoreg.
  - exact Hnomem.
  - destruct (primary_line_columns s 0x2000 1 [OpExit])
      as (_ & _ & Hreg & _ & Hline & _).
    destruct (Hreg Hnoreg) as [Hr He].
    rewrite (Hline Hnomem), Hr, He. reflexivity.
  - exact Hnomem'.
  - destruct (primary_line_columns s 0x2000 1 [OpExit; OpReg 0 1])
      as (_ & _ & _ & Hreg & Hline & _).
    rewrite (Hline Hnomem').
    rewrite (Hreg [OpExit] 0 1 [] eq_refl Hnoreg). reflexivity.
  - exact Hmem.
  - destruct (primary_line_columns s 0x2000 1 [OpReg 0 1; OpMemRead 16 []])
      as (_ & _ & _ & Hreg & _ & Hline).
    rewrite (Hline [OpReg 0 1] (OpMemRead 16 []) [] eq_refl
               ltac:(repeat constructor) Hmem).
    rewrite (Hreg [] 0 1 [OpMemRead 16 []] eq_refl ltac:(constructor)).
    reflexivity.
Defined.

Lemma queue_survives_boundaries_witness :
  let s := Feed Sim.s_entry (OpReg 0 1) in
  let boundaries := [OpJmp 0x2004; Sim.sys_read; OpKeyframe []] in
  let more := [OpMemRead 16 []] in
  let s1 := foldl Feed s boundaries in
  let s2 := foldl Feed s1 (OpStep 1 :: more) in
  pending s = None
  ∧ Forall (λ op, is_stepless_boundary op = true) boundaries
  ∧ Forall (λ op, is_side_effect op = true) more
  ∧ Flush s = s
  ∧ queue s1 = (None, effects s)
  ∧ queue s2 = (Some 1, effects s ++ more)
  ∧ w (Flush s2) = w (insPrint s2 (PC s2) 1 (effects s ++ more))
  ∧ shadow (Flush s2)
    = shadow (foldl update (update s2 (OpStep 1)) (effects s ++ more)).
Proof.
  intros s boundaries more s1 s2.
  assert (Hp : pending s = None) by reflexivity.
  assert (Hb : Forall (λ op, is_stepless_boundary op = true) boundaries)
    by (repeat constructor).
  assert (Hm : Forall (λ op, is_side_effect op = true) more)
    by (repeat constructor).
  split_and!; [exact Hp | exact Hb | exact Hm | ..];
    apply (queue_survives_boundaries s boundaries 1 more Hp Hb Hm).
Defined.

(** ** The further properties on concrete traces *)

Lemma Flush_advances_PC_witness :
  let s := foldl Feed Sim.s0 (Sim.entry ++ [OpStep 1; OpReg 0 1]) in
  queue_ok Sim.s0
  ∧ pending s = Some 1
  ∧ queue_ok s
  ∧ PC (Flush s) = wrap64 (PC s + 1).
Proof.
  intros s.
  assert (Hq : queue_ok Sim.s0) by exact (List.Forall_nil _).
  assert (Hp : pending s = Some 1) by reflexivity.
  split_and!; [exact Hq | exact Hp | |].
  - exact (proj1 (Flush_advances_PC Sim.s0 _ Hq)).
  - exact (proj2 (Flush_advances_PC Sim.s0 _ Hq) 1 Hp).
Defined.

Lemma Feed_replays_update_witness :
  let evs := [OpStep 1; OpMemWrite 0x2001 [x90]; OpReg 0 7; OpJmp 0x2001;
              OpReg 4 0x1000; OpStep 1; OpMemRead 0x2000 [x00]] in
  let s := foldl Feed Sim.s_entry evs in
  queue_ok Sim.s_entry
  ∧ (pending Sim.s_entry = None → effects Sim.s_entry = [])
  ∧ Forall (λ ev, is_plain ev = true) evs
  ∧ (pending s = None → effects s = [])
  ∧ shadow (Flush s) = shadow (foldl update (Flush Sim.s_entry) evs).
Proof.
  intros evs s.
  assert (Hq : queue_ok Sim.s_entry) by exact (List.Forall_nil _).
  assert (H0 : pending Sim.s_entry = None → effects Sim.s_entry = [])
    by (intros _; reflexivity).
  assert (Hplain : Forall (λ ev, is_plain ev = true) evs)
    by (repeat constructor).
  assert (Hend : pending s = None → effects s = [])
    by (intros H; vm_compute in H; discriminate H).
  split_and!; [exact Hq | exact H0 | exact Hplain | exact Hend |].
  exact (Feed_replays_update Sim.s_entry evs Hq H0 Hplain Hend).
Defined.

Lemma SP_follows_register_witness :
  let s := foldl Feed (NewStreamUI Sim.arch)
             (Sim.entry ++ [OpStep 1; OpReg 4 0x7fff]) in
  Regs (Flush s) !! models.SP Sim.arch = Some 0x7fff
  ∧ SP (Flush s) = 0x7fff.
Proof.
  intros s.
  assert (Hreg : Regs (Flush s) !! models.SP Sim.arch = Some 0x7fff)
    by reflexivity.
  split; [exact Hreg|].
  exact (proj2 (SP_follows_register Sim.arch _) 0x7fff Hreg).
Defined.

Lemma NewStreamUI_measures_names_witness :
  models.RegNames Sim.arch !! 1 = Some "ecx"
  ∧ (String.length "ecx" ≤ name_width (regfmt (NewStreamUI Sim.arch)))%nat.
Proof.
  assert (Hname : models.RegNames Sim.arch !! 1 = Some "ecx") by reflexivity.
  split; [exact Hname|].
  exact (proj1 (NewStreamUI_measures_names Sim.arch) 1 "ecx" Hname).
Defined.

Lemma insPrint_unknown_register_witness :
  let s := Sim.s_entry in
  let ins := insPrint_ins s 0x2000 1 in
  let col := ins +:+ pad ins (inscol s) in
  let r0 := Sprintf_regfmt (regfmt s) (Itoa 9) 2 in
  models.RegNames (Arch s) !! 9 = None
  ∧ ∃ tail extra,
      w (insPrint s 0x2000 1 [OpReg 9 2])
      = w s ++ spreg_lines []
        ++ (col +:+ " | " +:+ (r0 +:+ pad r0 (regcol s)) +:+ tail) :: extra.
Proof.
  intros s ins col r0.
  assert (Hnone : models.RegNames (Arch s) !! 9 = None) by reflexivity.
  split; [exact Hnone|].
  exact (insPrint_unknown_register s 0x2000 1 9 2 [] Hnone).
Defined.

Lemma register_column_width_witness :
  let s := foldl Feed (NewStreamUI Sim.arch) Sim.entry in
  let r0 := Sprintf_regfmt (regfmt s)
              (default (Itoa 0) (models.RegNames Sim.arch !! 0)) 1 in
  models.RegNames Sim.arch !! 0 = Some "eax"
  ∧ RuneCountInString "eax" = String.length "eax"
  ∧ (4 ≤ models.Bits Sim.arch)%nat
  ∧ 0 ≤ 1 < 2 ^ (4 * Z.of_nat (models.Bits Sim.arch / 4))
  ∧ String.length r0 = regcol s.
Proof.
  intros s r0.
  assert (Hname : models.RegNames Sim.arch !! 0 = Some "eax") by reflexivity.
  assert (Hascii : RuneCountInString "eax" = String.length "eax")
    by reflexivity.
  assert (Hbits : (4 ≤ models.Bits Sim.arch)%nat) by (vm_compute; lia).
  assert (Hval : 0 ≤ 1 < 2 ^ (4 * Z.of_nat (models.Bits Sim.arch / 4)))
    by (vm_compute; split; [discriminate|reflexivity]).
  split; [exact Hname|]. split; [exact Hascii|].
  split; [exact Hbits|]. split; [exact Hval|].
  exact (proj2 (proj2 (register_column_width Sim.arch Sim.entry 0x2000 1 0 1 []))
           "eax" Hname Hascii Hbits Hval).
Defined.

Lemma insPrint_line_count_witness :
  let s := Sim.s_entry in
  let effs := [OpMemRead 16 []; OpSpReg 2 [x01]; OpMemWrite 32 [x00]] in
  Forall (λ op, is_reg_write op = false) effs
  ∧ ∃ primary, w (insPrint s 0x2000 1 effs)
               = w s ++ spreg_lines effs ++ [primary].
Proof.
  intros s effs.
  assert (Hnone : Forall (λ op, is_reg_write op = false) effs)
    by (repeat constructor).
  split; [exact Hnone|].
  exact (proj2 (insPrint_line_count s 0x2000 1 effs) Hnone).
Defined.

Lemma Flush_drops_inert_witness :
  let s := foldl Feed Sim.s_entry [OpStep 1; OpReg 0 1] in
  let op := OpKeyframe [OpJmp 0x3000; OpMemWrite 0x2000 [xc3]] in
  pending s = Some 1
  ∧ is_inert op = true
  ∧ Flush (Feed s (OpFrame [op])) = Flush s.
Proof.
  intros s op.
  assert (Hp : pending s = Some 1) by reflexivity.
  assert (Hop : is_inert op = true) by reflexivity.
  split_and!; [exact Hp | exact Hop |].
  exact (Flush_drops_inert s 1 op Hp Hop).
Defined.

Lemma boundary_flushes_first_witness :
  let s := foldl Feed Sim.s_entry [OpStep 1; OpReg 0 1] in
  pending s = Some 1
  ∧ w (Feed s (OpJmp 0x3000))
    = w (insPrint s (PC s) 1 (effects s)) ++ [nl +:+ fmt_sharp_x 0x3000 +:+ nl].
Proof.
  intros s.
  assert (Hp : pending s = Some 1) by reflexivity.
  split; [exact Hp|].
  exact (proj1 (boundary_flushes_first s 1 Hp) 0x3000).
Defined.

Lemma queued_write_applied_witness :
  let s := foldl Feed Sim.s_entry [OpStep 1; OpReg 4 1] in
  let s' := Flush (Feed s (OpReg 4 0x7ffc)) in
  pending s = Some 1
  ∧ 4 = models.SP (Arch s)
  ∧ Regs s' !! 4 = Some 0x7ffc
  ∧ SP s' = 0x7ffc.
Proof.
  intros s s'.
  assert (Hp : pending s = Some 1) by reflexivity.
  assert (Hsp : 4 = models.SP (Arch s)) by reflexivity.
  split_and!; [exact Hp | exact Hsp | |].
  - exact (proj1 (proj1 (queued_write_applied s 1 4 Hp) 0x7ffc)).
  - exact (proj2 (proj1 (queued_write_applied s 1 4 Hp) 0x7ffc) Hsp).
Defined.

Lemma PC_stays_uint64_witness :
  let evs := [OpJmp (2 ^ 64 - 1); OpStep 2] in
  let s := foldl Feed Sim.s0 evs in
  queue_ok Sim.s0
  ∧ is_uint64 (PC Sim.s0)
  ∧ forallb targets_ok evs = true
  ∧ is_uint64 (PC s) ∧ is_uint64 (PC (Flush s)).
Proof.
  intros evs s.
  assert (Hq : queue_ok Sim.s0) by exact (List.Forall_nil _).
  assert (Hpc : is_uint64 (PC Sim.s0))
    by (split; [discriminate|reflexivity]).
  assert (Hok : forallb targets_ok evs = true) by reflexivity.
  split; [exact Hq|]. split; [exact Hpc|]. split; [exact Hok|].
  exact (PC_stays_uint64 Sim.s0 evs Hq Hpc Hok).
Defined.

Lemma keyframe_skips_nested_witness :
  let op := OpKeyframe [OpJmp 0x3000] in
  is_skipped op = true
  ∧ Feed Sim.s_entry (OpKeyframe ([OpReg 0 1] ++ op :: [OpReg 1 2]))
    = Feed Sim.s_entry (OpKeyframe ([OpReg 0 1] ++ [OpReg 1 2])).
Proof.
  intros op.
  assert (Hop : is_skipped op = true) by reflexivity.
  split; [exact Hop|].
  exact (keyframe_skips_nested Sim.s_entry [OpReg 0 1] op [OpReg 1 2] Hop).
Defined.

Lemma output_is_lines_witness :
  let s' := foldl Feed Sim.s0 (Sim.entry ++ [OpStep 1; Sim.sys_read]) in
  Forall ends_with_nl (w Sim.s0)
  ∧ Forall ends_with_nl (w s') ∧ Forall ends_with_nl (w (Flush s')).
Proof.
  intros s'.
  assert (Hw : Forall ends_with_nl (w Sim.s0)) by exact (List.Forall_nil _).
  split; [exact Hw|].
  exact (output_is_lines Sim.s0 _ Hw).
Defined.
